(** * PPO-Lag: the Lagrange multiplier and the constrained policy loss

    A shallow embedding of [src/agents/naive_lagrange.py] and
    [src/agents/ppolag.py].

    Conventions of the embedding.
    - A float tensor is a shape together with its elements in row-major
      order; the elements are real numbers and arithmetic is exact.  What
      float32 does at the ends of its exponent range is kept for the
      multiplier, in the module [F32]: there a result may be zero or
      infinite where the real result is not.
    - A [TensorDict] is a finite map from nested keys (paths of strings) to
      tensors.  TensorDict objects live in a heap indexed by object
      identifiers, so that [clone(False)], [set] and the calls that write
      into a batch they are handed act on identified objects.
    - The collaborators from torchrl (value estimators, critics, the
      importance-weight computation, the entropy bonus) are fields of the
      loss module, as in the Python object; [distance_loss], a function of
      torchrl, is a parameter.
    - The autograd graph is not part of the state: [detach] is the identity
      on values. *)

From Stdlib Require Import Reals Lra Lia.
From stdpp Require Import gmap strings list.

Local Open Scope R_scope.

(** ** Scalar functions of torch and tensordict *)

(** [torch.nn.functional.softplus] with its default [beta = 1], in exact
    arithmetic: [log(1 + exp(x))].  The threshold above which torch returns
    [x] itself, and the underflow of [exp], are in [F32.softplus]. *)
Definition softplus (x : R) : R := ln (1 + exp x).

(** [tensordict.nn.inv_softplus] in exact arithmetic:
    [bias.expm1().clamp_min(1e-6).log()].  The overflow of [expm1] is in
    [F32.inv_softplus]. *)
Definition inv_softplus (bias : R) : R := ln (Rmax (exp bias - 1) 1e-6).

(** [Tensor.clamp(lo, hi)] on one element: [min(max(x, lo), hi)]. *)
Definition clamp (lo hi x : R) : R := Rmin (Rmax x lo) hi.

(** The derivative torch back-propagates through [softplus]:
    [z / (z + 1)] with [z = exp(x)]. *)
Definition softplus_grad (x : R) : R := exp x / (exp x + 1).

(** ** The same functions on float32

    [self.lag] is a float32 tensor.  The definitions above idealise its
    arithmetic.  Those of this module keep what float32 does at the two ends
    of its exponent range (a result too small becomes 0, one too large an
    infinity), the special values, and the threshold of torch's [softplus].
    The rounding of the 24-bit significand is left out: a result inside the
    range is the real result. *)
Module F32.

Inductive t :=
  | Fin (x : R)
  | PInf
  | NInf
  | NaN.

(** [2^-150], half the smallest positive float32: a result of at most this
    magnitude rounds to zero. *)
Definition tiny : R := / 2 ^ 150.

(** [2^128 - 2^103], half a unit in the last place above the largest
    float32: a result of at least this magnitude rounds to an infinity. *)
Definition huge : R := 2 ^ 128 - 2 ^ 103.

(** The float32 that a real result becomes. *)
Definition of_real (x : R) : t :=
  if Rle_dec (Rabs x) tiny then Fin 0
  else if Rle_dec huge x then PInf
  else if Rle_dec x (- huge) then NInf
  else Fin x.

(** [Tensor.expm1()] *)
Definition expm1f (a : t) : t :=
  match a with
  | Fin x => of_real (exp x - 1)
  | PInf => PInf
  | NInf => Fin (-1)
  | NaN => NaN
  end.

(** [Tensor.clamp_min(lo)] *)
Definition clamp_min (lo : R) (a : t) : t :=
  match a with
  | Fin x => Fin (Rmax x lo)
  | PInf => PInf
  | NInf => Fin lo
  | NaN => NaN
  end.

(** [Tensor.log()] *)
Definition logf (a : t) : t :=
  match a with
  | Fin x =>
      if Rlt_dec x 0 then NaN
      else if Req_dec_T x 0 then NInf
      else of_real (ln x)
  | PInf => PInf
  | NInf => NaN
  | NaN => NaN
  end.

(** [exp] and [log1p], as the kernel of [softplus] calls them. *)
Definition expf (a : t) : t :=
  match a with
  | Fin x => of_real (exp x)
  | PInf => PInf
  | NInf => Fin 0
  | NaN => NaN
  end.

Definition log1pf (a : t) : t :=
  match a with
  | Fin x =>
      if Rlt_dec x (-1) then NaN
      else if Req_dec_T x (-1) then NInf
      else of_real (ln (1 + x))
  | PInf => PInf
  | NInf => NaN
  | NaN => NaN
  end.

(** [a > c], false on NaN. *)
Definition gtb (a : t) (c : R) : bool :=
  match a with
  | Fin x => if Rlt_dec c x then true else false
  | PInf => true
  | NInf => false
  | NaN => false
  end.

(** [torch.nn.functional.softplus] with its defaults [beta = 1] and
    [threshold = 20]: [x] itself when [x > 20], else [log1p(exp(x))]. *)
Definition softplus (a : t) : t :=
  if gtb a 20 then a else log1pf (expf a).

(** [tensordict.nn.inv_softplus] of a Python float: the float is made a
    float32 tensor first, [torch.tensor(bias)], then
    [bias.expm1().clamp_min(1e-6).log()]. *)
Definition inv_softplus (bias : R) : t :=
  logf (clamp_min 1e-6 (expm1f (of_real bias))).

End F32.

(** ** Tensors *)

Record Tensor := mkTensor { shape : list nat; data : list R }.

(** Number of stored elements (the product of [shape] for a tensor built by
    the operations below). *)
Definition numel (t : Tensor) : nat := length (data t).

(** A zero-dimensional tensor. *)
Definition scalar (x : R) : Tensor := mkTensor [] [x].

Definition tensor_map (f : R → R) (t : Tensor) : Tensor :=
  mkTensor (shape t) (map f (data t)).

(** Elementwise binary operation on two tensors of the same shape (the only
    case in which [forward] reaches one: it asserts equal shapes first). *)
Definition tensor_map2 (f : R → R → R) (a b : Tensor) : Tensor :=
  mkTensor (shape a) (zip_with f (data a) (data b)).

Definition sum_list (l : list R) : R := foldr Rplus 0 l.

(** [Tensor.mean()].  On an empty tensor torch yields NaN; here the quotient
    by zero is whatever [/ 0] is in [R]. *)
Definition mean_list (l : list R) : R := sum_list l / INR (length l).
Definition mean (t : Tensor) : R := mean_list (data t).

(** [Tensor.std()]: the unbiased estimator (Bessel's correction). *)
Definition std_list (l : list R) : R :=
  sqrt (sum_list (map (λ x, (x - mean_list l) * (x - mean_list l)) l)
        / (INR (length l) - 1)).
Definition std (t : Tensor) : R := std_list (data t).

Definition shape_eqb (s1 s2 : list nat) : bool := bool_decide (s1 = s2).

(** ** [NaiveLagrange] *)

Abbreviation key := (list string).
Abbreviation TensorDict := (gmap key Tensor).

Inductive exn :=
  | KeyError (k : key)
  | IndexError
  | AssertionError
  | ExternalError (msg : string).

Inductive result (A : Type) :=
  | Ok (a : A)
  | Err (e : exn).
Arguments Ok {A} a.
Arguments Err {A} e.

(** [tdict[k]] / [tdict.get(k)] on a TensorDict value. *)
Definition td_lookup (td : TensorDict) (k : key) : result Tensor :=
  match td !! k with
  | Some t => Ok t
  | None => Err (KeyError k)
  end.

Module NaiveLagrange.

Record t := mk { lag : R; cost_limit : R }.

(** [__init__(initial_value, cost_limit)] *)
Definition init (initial_value cost_limit : R) : t :=
  mk (inv_softplus initial_value) cost_limit.

Definition proj : R → R := softplus.

(** The expression of [forward] at one element of ['avg_violation']. *)
Definition lagrangian_loss (lag avg_violation cost_scale : R) : R :=
  - proj lag * avg_violation * cost_scale.

(** [forward(tdict, cost_scale)] *)
Definition forward (self : t) (tdict : TensorDict) (cost_scale : R)
  : result Tensor :=
  match td_lookup tdict ["avg_violation"] with
  | Ok av => Ok (tensor_map (λ v, lagrangian_loss (lag self) v cost_scale) av)
  | Err e => Err e
  end.

(** [get()] *)
Definition get (self : t) : R := proj (lag self).

(** [get_logs()] *)
Definition get_logs (self : t) : TensorDict :=
  {[ ["lagrangian"] := mkTensor [1%nat] [get self] ]}.

End NaiveLagrange.

(** ** The heap of TensorDict objects *)

Abbreviation oid := nat.
Abbreviation heap := (gmap nat TensorDict).

(** Computations that read and write TensorDict objects and may raise. *)
Definition M (A : Type) : Type := heap → result (A * heap).

#[global] Instance M_ret : MRet M := λ A a h, Ok (a, h).
#[global] Instance M_bind : MBind M := λ A B f m h,
  match m h with
  | Ok (a, h') => f a h'
  | Err e => Err e
  end.

Definition raise {A} (e : exn) : M A := λ _, Err e.

Definition lift {A} (r : result A) : M A := λ h,
  match r with
  | Ok a => Ok (a, h)
  | Err e => Err e
  end.

(** An identifier no object of the heap has. *)
Definition fresh_oid (h : heap) : oid :=
  S (foldr Nat.max 0%nat (map_to_list h).*1).

Definition no_object {A} : result A := Err (ExternalError "no such object").

(** [TensorDict({}, [])] *)
Definition td_new : M oid := λ h,
  let o := fresh_oid h in Ok (o, <[o := ∅]> h).

(** [td.clone(False)]: a new TensorDict object with the same entries.  The
    nested TensorDicts are cloned with it (a key is a whole path, so the new
    map is a new tree); the leaf tensors are shared, which is invisible as
    long as no tensor is written in place. *)
Definition td_clone (o : oid) : M oid := λ h,
  match h !! o with
  | Some td => let o' := fresh_oid h in Ok (o', <[o' := td]> h)
  | None => no_object
  end.

(** [td.get(k)] *)
Definition td_get (o : oid) (k : key) : M Tensor := λ h,
  match h !! o with
  | Some td =>
      match td_lookup td k with
      | Ok t => Ok (t, h)
      | Err e => Err e
      end
  | None => no_object
  end.

(** [td.set(k, v)]: rebinds [k] in the object [o]. *)
Definition td_set (o : oid) (k : key) (v : Tensor) : M unit := λ h,
  match h !! o with
  | Some td => Ok (tt, <[o := <[k := v]> td]> h)
  | None => no_object
  end.

(** A call of a collaborator on the TensorDict object [o]: it reads the
    object and writes its outputs into it. *)
Definition td_call_with {A} (f : TensorDict → result (A * TensorDict))
    (o : oid) : M A := λ h,
  match h !! o with
  | Some td =>
      match f td with
      | Ok (a, td') => Ok (a, <[o := td']> h)
      | Err e => Err e
      end
  | None => no_object
  end.

Definition td_call (f : TensorDict → result TensorDict) (o : oid) : M unit :=
  td_call_with (λ td, match f td with
                      | Ok td' => Ok (tt, td')
                      | Err e => Err e
                      end) o.

(** [assert b] *)
Definition assert_ (b : bool) : M unit :=
  if b then mret tt else raise AssertionError.

(** The entry [k] of the object [o], if both exist. *)
Definition entry (h : heap) (o : oid) (k : key) : option Tensor :=
  h !! o ≫= (.!! k).

(** [m] leaves the entry [k] of the object [o] as it is. *)
Definition keeps {A} (o : oid) (k : key) (m : M A) : Prop :=
  ∀ h a h', m h = Ok (a, h') → is_Some (h !! o) →
    is_Some (h' !! o) ∧ entry h' o k = entry h o k.

(** ** Slicing along the second dimension *)

(** The [n] consecutive rows of width [w] of a row-major list. *)
Fixpoint rows (n w : nat) (l : list R) : list (list R) :=
  match n with
  | O => []
  | S n' => take w l :: rows n' w (drop w l)
  end.

(** [t[:, start:stop]] ([stop = None] for an open end).  Indexing a second
    dimension that does not exist raises [IndexError]. *)
Definition slice_dim1 (start : nat) (stop : option nat) (t : Tensor)
  : result Tensor :=
  match shape t with
  | n :: c :: rest =>
      let inner := foldr Nat.mul 1%nat rest in
      let stop' := (default c stop `min` c)%nat in
      let start' := (start `min` c)%nat in
      Ok (mkTensor (n :: (stop' - start')%nat :: rest)
            (concat (map (λ row, drop (start' * inner) (take (stop' * inner) row))
                         (rows n (c * inner) (data t)))))
  | _ => Err IndexError
  end.

Definition detach {A} (x : A) : A := x.

(** ** [PPOLagLoss] *)

Section Loss.

(** Network parameter sets and action distributions are opaque here. *)
Context {Params Dist : Type}.

(** [torchrl.objectives.distance_loss(v1, v2, loss_function=...)] *)
Variable distance_loss : Tensor → Tensor → string → result Tensor.

(** A functional module: called with a parameter set on a batch, it writes
    its outputs into the batch. *)
Record TensorDictModule := mkModule {
  module_call : Params → TensorDict → result TensorDict;
  module_params : Params
}.

(** A value estimator: called on a batch with [params] and [target_params],
    it writes the advantage and the value target into the batch. *)
Definition ValueEstimator : Type :=
  Params → Params → TensorDict → result TensorDict.

(** The part of the object that [ClipPPOLoss.__init__] sets up and that
    [forward] reads. *)
Record ClipPPOLoss := mkClipPPOLoss {
  critic : Params → TensorDict → result TensorDict;
  critic_params : Params;
  target_critic_params : Params;
  advantage_key : key;
  value_target_key : key;
  value_key : key;
  normalize_advantage : bool;
  clip_epsilon : R;
  entropy_bonus : bool;
  entropy_coef : R;
  critic_coef : R;
  loss_critic_type : string;
  (** [self._log_weight(td)]: the log importance weight and the current
      action distribution; running the actor may write into [td]. *)
  _log_weight : TensorDict → result ((Tensor * Dist) * TensorDict);
  get_entropy_bonus : Dist → result Tensor
}.

(** [self._clip_bounds]: [(log1p(-clip_epsilon), log1p(clip_epsilon))] *)
Definition _clip_bounds (self : ClipPPOLoss) : R * R :=
  (ln (1 + - clip_epsilon self), ln (1 + clip_epsilon self)).

Record PPOLagLoss := mkPPOLagLoss {
  super : ClipPPOLoss;
  lag : R;
  safe_critic : Params → TensorDict → result TensorDict;
  safe_critic_params : Params;
  target_safe_critic_params : Params;
  c_advantage_key : key;
  c_value_target_key : key;
  c_value_key : key;
  r_value_estimator : ValueEstimator;
  c_value_estimator : ValueEstimator
}.

(** [__init__].  [super_init] is [ClipPPOLoss.__init__] applied to the
    actor, the critic and [**kwargs]; it receives the three reward-channel
    keys.  [convert_to_functional(..., create_target_params=False)] makes
    the target parameters the detached live ones. *)
Definition init (super_init : key → key → key → ClipPPOLoss)
    (safe_critic : TensorDictModule)
    (r_value_estimator c_value_estimator : ValueEstimator)
    (initial_lagrangian : R)
    (r_advantage_key c_advantage_key : key)
    (r_value_target_key c_value_target_key : key)
    (r_value_key c_value_key : key) : PPOLagLoss :=
  {| super := super_init r_advantage_key r_value_key r_value_target_key;
     lag := inv_softplus initial_lagrangian;
     safe_critic := module_call safe_critic;
     safe_critic_params := module_params safe_critic;
     target_safe_critic_params := detach (module_params safe_critic);
     c_advantage_key := c_advantage_key;
     c_value_target_key := c_value_target_key;
     c_value_key := c_value_key;
     r_value_estimator := r_value_estimator;
     c_value_estimator := c_value_estimator |}.

(** The [lagrangian] property. *)
Definition lagrangian (self : PPOLagLoss) : R := detach (softplus (lag self)).

(** [forward], the dual loss branch:
    [if train_lagrangian: ... td_out.set("loss_lagrangian", ...)] and
    [td_out.set("lagrangian", self.lagrangian)]. *)
Definition forward_lagrangian (self : PPOLagLoss) (tdict td_out : oid)
    (train_lagrangian : bool) : M unit :=
  (if train_lagrangian then
     av ← td_get tdict ["avg_violation"];
     td_set td_out ["loss_lagrangian"] (scalar (- softplus (lag self) * mean av))
   else mret tt);;
  td_set td_out ["lagrangian"] (scalar (lagrangian self)).

(** [forward], "compute advantages for both critics": both estimators are
    called on [tmp_td]. *)
Definition forward_estimators (self : PPOLagLoss) (tdict tmp_td : oid)
    : M unit :=
  reward ← td_get tdict ["next"; "reward"];
  r ← lift (slice_dim1 0 (Some 1%nat) reward);
  td_set tmp_td ["next"; "reward"] r;;
  td_call (r_value_estimator self (detach (critic_params (super self)))
                                  (target_critic_params (super self))) tmp_td;;
  reward ← td_get tdict ["next"; "reward"];
  c ← lift (slice_dim1 1 None reward);
  td_set tmp_td ["next"; "reward"] c;;
  td_call (c_value_estimator self (detach (safe_critic_params self))
                                  (target_safe_critic_params self)) tmp_td.

(** [(adv - loc) / scale] with [loc = adv.mean()] and
    [scale = adv.std().clamp_min(1e-6)]. *)
Definition standardize (adv : Tensor) : Tensor :=
  let loc := mean adv in
  let scale := Rmax (std adv) 1e-6 in
  tensor_map (λ a, (a - loc) / scale) adv.

(** [if self.normalize_advantage: if r_advantage.numel() > 1: ...
    if c_advantage.numel() > 1: ...] *)
Definition normalize_advantages (enabled : bool)
    (r_advantage c_advantage : Tensor) : Tensor * Tensor :=
  if enabled then
    (if (1 <? numel r_advantage)%nat then standardize r_advantage
     else r_advantage,
     if (1 <? numel c_advantage)%nat then standardize c_advantage
     else c_advantage)
  else (r_advantage, c_advantage).

Definition forward_advantages (self : PPOLagLoss) (tmp_td : oid)
    : M (Tensor * Tensor) :=
  r_advantage ← td_get tmp_td (advantage_key (super self));
  c_advantage ← td_get tmp_td (c_advantage_key self);
  mret (normalize_advantages (normalize_advantage (super self))
          r_advantage c_advantage).

(** The arithmetic of "compute actor loss", from [r_gain1] to [loss_pi]. *)
Definition actor_loss (lam : R) (bounds : R * R)
    (log_weight r_advantage c_advantage : Tensor) : R :=
  let r_gain1 := tensor_map2 Rmult (tensor_map exp log_weight) r_advantage in
  let r_gain2 :=
    tensor_map2 Rmult
      (tensor_map exp (tensor_map (clamp bounds.1 bounds.2) log_weight))
      r_advantage in
  let r_gain := tensor_map2 Rmin r_gain1 r_gain2 in
  let c_gain := tensor_map2 Rmult (tensor_map exp log_weight) c_advantage in
  mean (tensor_map2 Rplus (tensor_map Ropp r_gain)
                          (tensor_map (Rmult lam) c_gain))
  / (1 + lam).

(** [forward], "compute actor loss". *)
Definition forward_actor (self : PPOLagLoss) (tmp_td td_out : oid)
    (r_advantage c_advantage : Tensor) : M Dist :=
  '(log_weight, dist) ← td_call_with (_log_weight (super self)) tmp_td;
  assert_ (shape_eqb (shape c_advantage) (shape log_weight)
           && shape_eqb (shape r_advantage) (shape log_weight));;
  td_set td_out ["loss_pi"]
    (scalar (actor_loss (lagrangian self) (_clip_bounds (super self))
               log_weight r_advantage c_advantage));;
  mret dist.

(** [forward], "compute entropy and entropy loss". *)
Definition forward_entropy (self : PPOLagLoss) (td_out : oid) (dist : Dist)
    : M unit :=
  entropy ← lift (get_entropy_bonus (super self) dist);
  (if entropy_bonus (super self) then
     td_set td_out ["loss_entropy"]
       (scalar (- entropy_coef (super self) * mean entropy))
   else mret tt);;
  td_set td_out ["entropy"] (scalar (detach (mean entropy))).

(** [forward], "compute critics losses". *)
Definition forward_critics (self : PPOLagLoss) (tmp_td td_out : oid)
    : M unit :=
  target ← td_get tmp_td (value_target_key (super self));
  td_call (critic (super self) (critic_params (super self))) tmp_td;;
  pred ← td_get tmp_td (value_key (super self));
  d ← lift (distance_loss target pred (loss_critic_type (super self)));
  let loss_r_critic := tensor_map (Rmult (critic_coef (super self))) d in
  target ← td_get tmp_td (c_value_target_key self);
  td_call (safe_critic self (safe_critic_params self)) tmp_td;;
  pred ← td_get tmp_td (c_value_key self);
  d ← lift (distance_loss target pred (loss_critic_type (super self)));
  let loss_c_critic := tensor_map (Rmult (critic_coef (super self))) d in
  td_set td_out ["loss_r_critic"] (scalar (mean loss_r_critic));;
  td_set td_out ["loss_c_critic"] (scalar (mean loss_c_critic)).

(** [forward] up to the normalized advantages. *)
Definition forward_batch (self : PPOLagLoss) (tdict : oid)
    (train_lagrangian : bool) : M (oid * oid * Tensor * Tensor) :=
  tmp_td ← td_clone tdict;
  td_out ← td_new;
  forward_lagrangian self tdict td_out train_lagrangian;;
  forward_estimators self tdict tmp_td;;
  '(r_advantage, c_advantage) ← forward_advantages self tmp_td;
  mret (tmp_td, td_out, r_advantage, c_advantage).

(** [forward(tdict, train_lagrangian)]; the result is the object [td_out]. *)
Definition forward (self : PPOLagLoss) (tdict : oid)
    (train_lagrangian : bool) : M oid :=
  '(tmp_td, td_out, r_advantage, c_advantage) ←
    forward_batch self tdict train_lagrangian;
  dist ← forward_actor self tmp_td td_out r_advantage c_advantage;
  forward_entropy self td_out dist;;
  forward_critics self tmp_td td_out;;
  mret td_out.

End Loss.

(** ** The multiplier in float32 *)

(** The [lag] parameter that [NaiveLagrange.__init__] and
    [PPOLagLoss.__init__] register,
    [torch.tensor(inv_softplus(initial_value))], in float32. *)
Definition initial_lag32 (initial_value : R) : F32.t :=
  F32.inv_softplus initial_value.

(** [NaiveLagrange.get()] and [PPOLagLoss.lagrangian] on the float32
    parameter: both are [softplus(self.lag)]. *)
Definition multiplier32 (lag : F32.t) : F32.t := F32.softplus lag.

(** ** The specification's formulas *)

Module Spec.

(** The summands of the actor loss, element by element:
    [-reward_surrogate_gain + λ * cost_gain]. *)
Fixpoint actor_terms (lam lo hi : R) (log_weight r_adv c_adv : list R)
  : list R :=
  match log_weight, r_adv, c_adv with
  | w :: ws, r :: rs, c :: cs =>
      (- Rmin (exp w * r) (exp (clamp lo hi w) * r) + lam * (exp w * c))
      :: actor_terms lam lo hi ws rs cs
  | _, _, _ => []
  end.

(** "mean of [(-reward_surrogate_gain + λ * cost_gain)] divided by
    [(1 + λ)]". *)
Definition actor_loss (lam lo hi : R) (log_weight r_adv c_adv : list R) : R :=
  mean_list (actor_terms lam lo hi log_weight r_adv c_adv) / (1 + lam).

(** "[loss(avg_violation, cost_scale)] returns
    [-proj(raw) * avg_violation * cost_scale]". *)
Definition lagrange_loss (raw avg_violation cost_scale : R) : R :=
  - softplus raw * avg_violation * cost_scale.

(** Modelled from the spec: the dual-update step.  The optimiser call is in
    [train_loop] of [src/utils/training.py], which is not among the sources;
    the specification speaks of a step "with positive learning rate on the
    dual loss", taken here as one step of plain gradient descent. *)
Definition gradient_step (lr raw grad : R) : R := raw - lr * grad.

(** The claimed PPO pessimism property of the clipped gain, for ratio bounds
    [low < 1 < high]. *)
Definition clipped_gain_pessimistic : Prop :=
  ∀ low high log_weight adv : R,
    0 < low < 1 → 1 < high →
    (0 <= adv →
       exp (clamp (ln low) (ln high) log_weight) * adv <= exp log_weight * adv)
    ∧ (adv < 0 →
       exp (clamp (ln low) (ln high) log_weight) * adv >= exp log_weight * adv).

(** "index 0 = performance reward, index 1 = cost": the two channels of the
    row-major data of a tensor whose last dimension has two entries. *)
Fixpoint reward_channel (l : list R) : list R :=
  match l with
  | r :: _ :: rest => r :: reward_channel rest
  | _ => []
  end.

Fixpoint cost_channel (l : list R) : list R :=
  match l with
  | _ :: c :: rest => c :: cost_channel rest
  | _ => []
  end.

(** "they operate on independent copies of the batch differing only in which
    reward channel is exposed": each estimator is handed a copy of the
    caller's batch of its own. *)
Definition independent_estimators {Params Dist : Type}
    (self : @PPOLagLoss Params Dist) (td : TensorDict)
  : result (TensorDict * TensorDict) :=
  match td_lookup td ["next"; "reward"] with
  | Ok reward =>
      match slice_dim1 0 (Some 1%nat) reward, slice_dim1 1 None reward with
      | Ok r, Ok c =>
          match r_value_estimator self (critic_params (super self))
                  (target_critic_params (super self))
                  (<[ ["next"; "reward"] := r ]> td),
                c_value_estimator self (safe_critic_params self)
                  (target_safe_critic_params self)
                  (<[ ["next"; "reward"] := c ]> td) with
          | Ok td_r, Ok td_c => Ok (td_r, td_c)
          | Err e, _ | _, Err e => Err e
          end
      | Err e, _ | _, Err e => Err e
      end
  | Err e => Err e
  end.

(** "running them in either order": the cost estimator first, the reward
    estimator second, on the one batch [td]. *)
Definition cost_first_estimators {Params Dist : Type}
    (self : @PPOLagLoss Params Dist) (td : TensorDict) : result TensorDict :=
  match td_lookup td ["next"; "reward"] with
  | Ok reward =>
      match slice_dim1 0 (Some 1%nat) reward, slice_dim1 1 None reward with
      | Ok r, Ok c =>
          match c_value_estimator self (safe_critic_params self)
                  (target_safe_critic_params self)
                  (<[ ["next"; "reward"] := c ]> td) with
          | Ok td1 =>
              r_value_estimator self (critic_params (super self))
                (target_critic_params (super self))
                (<[ ["next"; "reward"] := r ]> td1)
          | Err e => Err e
          end
      | Err e, _ | _, Err e => Err e
      end
  | Err e => Err e
  end.

End Spec.

(** ** A concrete loss module and batch *)

Module Example.

Definition k_reward : key := ["next"; "reward"].

(** Four transitions with rewards [1, -1, 2, -2] and cost [0]. *)
Definition reward : Tensor :=
  mkTensor [4; 2]%nat [1; 0; -1; 0; 2; 0; -2; 0].

Definition batch : TensorDict :=
  <[ ["avg_violation"] := mkTensor [1%nat] [1] ]>
    (<[ k_reward := reward ]> ∅).

(** The caller's batch is object [0]. *)
Definition h0 : heap := {[ 0%nat := batch ]}.

(** An estimator that takes the exposed reward channel as advantage and
    as value target. *)
Definition estimator (k_adv k_target : key) : @ValueEstimator unit :=
  λ _ _ td,
    match td_lookup td k_reward with
    | Ok t => Ok (<[ k_target := t ]> (<[ k_adv := t ]> td))
    | Err e => Err e
    end.

(** A cost estimator that adds 1 to the advantage when the batch it is
    handed already holds a reward advantage. *)
Definition peeking_estimator : @ValueEstimator unit :=
  λ _ _ td,
    match td_lookup td k_reward with
    | Ok t =>
        let adv := match td !! ["r_advantage"] with
                   | Some _ => tensor_map (Rplus 1) t
                   | None => t
                   end in
        Ok (<[ ["c_value_target"] := t ]> (<[ ["c_advantage"] := adv ]> td))
    | Err e => Err e
    end.

Definition zeros : Tensor := mkTensor [4; 1]%nat [0; 0; 0; 0].

Definition value_net (k_value : key) : unit → TensorDict → result TensorDict :=
  λ _ td, Ok (<[ k_value := zeros ]> td).

Definition l2 (v1 v2 : Tensor) (loss_function : string) : result Tensor :=
  Ok (tensor_map2 (λ a b, (a - b) * (a - b)) v1 v2).

Definition const_estimator (k_adv k_target : key) (adv : Tensor)
  : @ValueEstimator unit :=
  λ _ _ td, Ok (<[ k_target := adv ]> (<[ k_adv := adv ]> td)).

Definition super_init (log_weight : Tensor) (k_adv k_value k_target : key)
  : @ClipPPOLoss unit unit :=
  {| critic := value_net k_value;
     critic_params := tt;
     target_critic_params := tt;
     advantage_key := k_adv;
     value_target_key := k_target;
     value_key := k_value;
     normalize_advantage := false;
     clip_epsilon := 0.2;
     entropy_bonus := true;
     entropy_coef := 0.01;
     critic_coef := 1;
     loss_critic_type := "l2";
     _log_weight := λ td, Ok ((log_weight, tt), td);
     get_entropy_bonus := λ _, Ok zeros |}.

Definition make (r_estimator c_estimator : @ValueEstimator unit)
    (log_weight : Tensor) : @PPOLagLoss unit unit :=
  init (super_init log_weight)
    (mkModule (value_net ["c_value"]) tt) r_estimator c_estimator
    1 ["r_advantage"] ["c_advantage"] ["r_value_target"] ["c_value_target"]
    ["r_value"] ["c_value"].

(** Advantages [[1, -1, 2, -2]] and [[0, 0, 0, 0]], log-weight [0]. *)
Definition self : @PPOLagLoss unit unit :=
  make (estimator ["r_advantage"] ["r_value_target"])
       (estimator ["c_advantage"] ["c_value_target"]) zeros.

(** The same with the cost estimator that looks at the batch it is handed. *)
Definition peeking_self : @PPOLagLoss unit unit :=
  make (estimator ["r_advantage"] ["r_value_target"]) peeking_estimator zeros.

(** Log-weight and reward advantage of shape [(4,)], cost advantage of shape
    [(3,)]. *)
Definition mismatched_self : @PPOLagLoss unit unit :=
  make (const_estimator ["r_advantage"] ["r_value_target"]
          (mkTensor [4%nat] [1; -1; 2; -2]))
       (const_estimator ["c_advantage"] ["c_value_target"]
          (mkTensor [3%nat] [0; 0; 0]))
       (mkTensor [4%nat] [0; 0; 0; 0]).

End Example.

(** ** Notions used to state further properties *)

(** The stored elements are as many as the shape says. *)
Definition tensor_wf (t : Tensor) : Prop :=
  length (data t) = foldr Nat.mul 1%nat (shape t).

(** The row-major data of a two-column tensor, from its two columns. *)
Fixpoint interleave (l1 l2 : list R) : list R :=
  match l1, l2 with
  | x :: l1', y :: l2' => x :: y :: interleave l1' l2'
  | _, _ => []
  end.

(** Two heaps that differ at most in the entry [k0] of the object [out]. *)
Definition agree_except (out : oid) (k0 : key) (h1 h2 : heap) : Prop :=
  (∀ o, o ≠ out → h1 !! o = h2 !! o)
  ∧ (is_Some (h1 !! out) ↔ is_Some (h2 !! out))
  ∧ (∀ k, k ≠ k0 → entry h1 out k = entry h2 out k).

(** [m] does not look at the entry [k0] of [out]: run from two heaps that
    differ at most there, it returns the same value and leaves heaps that
    again differ at most there. *)
Definition blind {A} (out : oid) (k0 : key) (m : M A) : Prop :=
  ∀ h1 h2 a h1', agree_except out k0 h1 h2 → m h1 = Ok (a, h1') →
    ∃ h2', m h2 = Ok (a, h2') ∧ agree_except out k0 h1' h2'.

(** * Properties *)

(** ** The positivity map *)

Lemma softplus_pos (x : R) : 0 < softplus x.
Proof.
  unfold softplus. rewrite <- ln_1.
  apply ln_increasing; [lra|]. pose proof (exp_pos x). lra.
Qed.

Lemma softplus_increasing (x y : R) : x < y → softplus x < softplus y.
Proof.
  intros Hxy. unfold softplus. pose proof (exp_pos x).
  apply ln_increasing; [lra|]. apply exp_increasing in Hxy. lra.
Qed.

Lemma softplus_ln (m : R) : 0 < m → softplus (ln m) = ln (1 + m).
Proof. intros Hm. unfold softplus. by rewrite exp_ln. Qed.

Lemma ln_1_plus_lt (x : R) : 0 < x → ln (1 + x) < x.
Proof.
  intros Hx. rewrite <- (ln_exp x) at 2.
  apply ln_increasing; [lra|]. apply exp_ineq1. lra.
Qed.

(** In exact arithmetic the round trip through [inv_softplus] is exact
    above the clamp of [inv_softplus]. *)
Lemma softplus_inv_softplus_exact (v : R) :
  1e-6 <= exp v - 1 → softplus (inv_softplus v) = v.
Proof.
  intros Hv. unfold inv_softplus. rewrite Rmax_left by done.
  rewrite softplus_ln by lra.
  replace (1 + (exp v - 1)) with (exp v) by lra. apply ln_exp.
Qed.

(** ** Numbers *)

(** The partial sums of the exponential series bound it from below. *)
Lemma exp_partial_sum (x : R) (N : nat) :
  0 <= x → sum_f_R0 (λ i, / INR (fact i) * x ^ i) N <= exp x.
Proof.
  intros Hx. apply sum_incr.
  - unfold exp. destruct (exist_exp x) as [l Hl]. exact Hl.
  - intros n. apply Rmult_le_pos.
    + left. apply Rinv_0_lt_compat, INR_fact_lt_0.
    + by apply pow_le.
Qed.

Lemma exp_nat_mult (n : nat) (x : R) : exp (INR n * x) = exp x ^ n.
Proof.
  induction n as [|n IH].
  - simpl. rewrite Rmult_0_l. apply exp_0.
  - rewrite S_INR, Rmult_plus_distr_r, Rmult_1_l, exp_plus, IH. simpl. lra.
Qed.

Lemma exp_1_ge : 8 / 3 <= exp 1.
Proof.
  pose proof (exp_partial_sum 1 3 ltac:(lra)) as H.
  simpl in H. lra.
Qed.

Lemma exp_52_75 : 2 <= exp (52 / 75).
Proof.
  pose proof (exp_partial_sum (52 / 75) 5 ltac:(lra)) as H.
  simpl in H. lra.
Qed.

Ltac Zpow_le :=
  rewrite ?pow_IZR; apply IZR_le, Z.leb_le; vm_compute; reflexivity.

Lemma tiny_pos : 0 < F32.tiny.
Proof. unfold F32.tiny. apply Rinv_0_lt_compat, pow_lt. lra. Qed.

Lemma tiny_small : F32.tiny <= / 10 ^ 45.
Proof.
  unfold F32.tiny. apply Rinv_le_contravar; [apply pow_lt; lra|]. Zpow_le.
Qed.

Lemma huge_large : 10 ^ 38 <= F32.huge.
Proof.
  unfold F32.huge.
  assert (10 ^ 38 + 2 ^ 103 <= 2 ^ 128) as H.
  { rewrite !pow_IZR, <- plus_IZR. apply IZR_le, Z.leb_le. vm_compute.
    reflexivity. }
  lra.
Qed.

Lemma tiny_lt : F32.tiny < 1e-40.
Proof. pose proof tiny_small. lra. Qed.

Lemma huge_gt : 1e38 <= F32.huge.
Proof. pose proof huge_large. lra. Qed.

Lemma huge_direct : 3 ^ 20 < F32.huge.
Proof. pose proof huge_large. lra. Qed.

Lemma exp_20_le : exp 20 <= 3 ^ 20.
Proof.
  replace 20 with (INR 20 * 1) by (simpl; lra). rewrite exp_nat_mult.
  apply pow_incr. split; [left; apply exp_pos|apply exp_le_3].
Qed.

Lemma exp_20_ge : 2 ^ 20 <= exp 20.
Proof.
  replace 20 with (INR 20 * 1) by (simpl; lra). rewrite exp_nat_mult.
  apply pow_incr. pose proof (exp_ineq1_le 1). lra.
Qed.

Lemma exp_104_ge : 2 ^ 150 <= exp 104.
Proof.
  replace 104 with (INR 150 * (52 / 75)) by (simpl; lra).
  rewrite exp_nat_mult. apply pow_incr. pose proof exp_52_75. lra.
Qed.

Lemma exp_100_ge : F32.huge + 1 <= exp 100.
Proof.
  replace 100 with (INR 100 * 1) by (simpl; lra). rewrite exp_nat_mult.
  apply Rle_trans with ((8 / 3) ^ 100).
  - unfold F32.huge. lra.
  - apply pow_incr. pose proof exp_1_ge. lra.
Qed.

(** [ln] below and above. *)
Lemma ln_le_minus_1 (x : R) : 0 < x → ln x <= x - 1.
Proof.
  intros Hx. pose proof (exp_ineq1_le (ln x)) as H.
  rewrite exp_ln in H by done. lra.
Qed.

Lemma ln_ge_1_minus_inv (x : R) : 0 < x → 1 - / x <= ln x.
Proof.
  intros Hx. pose proof (ln_le_minus_1 (/ x) ltac:(by apply Rinv_0_lt_compat)).
  rewrite ln_Rinv in H by done. lra.
Qed.

(** ** [of_real] *)

Lemma of_real_fin (x : R) :
  F32.tiny < Rabs x → - F32.huge < x < F32.huge → F32.of_real x = F32.Fin x.
Proof.
  intros Ht [Hlo Hhi]. unfold F32.of_real.
  destruct (Rle_dec (Rabs x) F32.tiny); [lra|].
  destruct (Rle_dec F32.huge x); [lra|].
  destruct (Rle_dec x (- F32.huge)); [lra|done].
Qed.

Lemma of_real_pos (x : R) :
  F32.tiny < x < F32.huge → F32.of_real x = F32.Fin x.
Proof.
  intros [Ht Hh]. pose proof tiny_pos. pose proof huge_gt.
  apply of_real_fin; [rewrite Rabs_right; lra|lra].
Qed.

Lemma of_real_zero (x : R) : Rabs x <= F32.tiny → F32.of_real x = F32.Fin 0.
Proof. intros Ht. unfold F32.of_real. by destruct (Rle_dec (Rabs x) F32.tiny). Qed.

Lemma of_real_inf (x : R) : F32.huge <= x → F32.of_real x = F32.PInf.
Proof.
  intros Hh. pose proof tiny_lt. pose proof huge_gt. unfold F32.of_real.
  destruct (Rle_dec (Rabs x) F32.tiny) as [Ht|_].
  - rewrite Rabs_right in Ht; lra.
  - by destruct (Rle_dec F32.huge x).
Qed.

Lemma log1pf_fin (x : R) :
  0 <= x → F32.log1pf (F32.Fin x) = F32.of_real (ln (1 + x)).
Proof.
  intros Hx. unfold F32.log1pf.
  destruct (Rlt_dec x (-1)); [lra|]. by destruct (Req_dec_T x (-1)); [lra|].
Qed.

Lemma logf_fin (x : R) : 0 < x → F32.logf (F32.Fin x) = F32.of_real (ln x).
Proof.
  intros Hx. unfold F32.logf.
  destruct (Rlt_dec x 0); [lra|]. by destruct (Req_dec_T x 0); [lra|].
Qed.

Lemma softplus32_fin (x : R) :
  F32.softplus (F32.Fin x)
  = if Rlt_dec 20 x then F32.Fin x
    else F32.log1pf (F32.of_real (exp x)).
Proof. unfold F32.softplus. simpl. by destruct (Rlt_dec 20 x). Qed.

(** Where neither end of the range is met, float32 [softplus] is the ideal
    one. *)
Lemma softplus32_ideal (x : R) :
  2 * F32.tiny <= exp x → x <= 20 →
  F32.softplus (F32.Fin x) = F32.Fin (softplus x).
Proof.
  intros Ht Hx. pose proof tiny_pos as Htp. pose proof tiny_lt as Hts.
  pose proof huge_direct as Hh. pose proof exp_20_le as H20.
  assert (exp x <= exp 20) as Hle.
  { destruct Hx as [Hx| ->]; [left; by apply exp_increasing|lra]. }
  rewrite softplus32_fin. destruct (Rlt_dec 20 x); [lra|].
  rewrite of_real_pos by lra. rewrite log1pf_fin by lra.
  apply of_real_pos. fold (softplus x). unfold softplus. split.
  - pose proof (ln_ge_1_minus_inv (1 + exp x) ltac:(lra)) as Hln.
    assert (F32.tiny < 1 - / (1 + exp x)); [|lra].
    assert (1 - / (1 + exp x) = exp x / (1 + exp x)) as -> by (field; lra).
    apply Rmult_lt_reg_r with (1 + exp x); [lra|].
    unfold Rdiv. rewrite Rmult_assoc, Rinv_l by lra. nra.
  - pose proof (ln_le_minus_1 (1 + exp x) ltac:(lra)). lra.
Qed.

Lemma softplus32_underflow (x : R) :
  exp x <= F32.tiny → F32.softplus (F32.Fin x) = F32.Fin 0.
Proof.
  intros Ht. pose proof tiny_pos as Htp. pose proof tiny_lt.
  pose proof (exp_pos x). pose proof exp_20_ge.
  rewrite softplus32_fin. destruct (Rlt_dec 20 x) as [Hx|_].
  { apply exp_increasing in Hx. lra. }
  rewrite of_real_zero by (rewrite Rabs_right; lra).
  rewrite log1pf_fin by lra. apply of_real_zero.
  rewrite Rplus_0_r, ln_1, Rabs_R0. lra.
Qed.

Lemma exp_le_inv (a : R) : a < 1 → exp a <= / (1 - a).
Proof.
  intros Ha. pose proof (exp_ineq1_le (- a)) as H. rewrite exp_Ropp in H.
  pose proof (exp_pos a) as Hp.
  apply Rmult_le_reg_r with (1 - a); [lra|]. rewrite Rinv_l by lra.
  apply Rmult_le_reg_r with (/ exp a); [by apply Rinv_0_lt_compat|].
  rewrite Rmult_1_l.
  replace (exp a * (1 - a) * / exp a) with ((1 - a) * (exp a * / exp a)) by lra.
  rewrite Rinv_r by lra. lra.
Qed.

Lemma exp_103_le : exp 103 <= 2 ^ 149.
Proof.
  assert (INR 149 = 149) as H149 by (by rewrite INR_IZR_INZ).
  assert (INR 1024 = 1024) as H1024 by (by rewrite INR_IZR_INZ).
  replace 103 with (INR 149 * (INR 1024 * (103 / 152576)))
    by (rewrite H149, H1024; lra).
  clear H149 H1024.
  rewrite exp_nat_mult. apply pow_incr. split; [left; apply exp_pos|].
  rewrite exp_nat_mult.
  set (a := 103 / 152576).
  assert (exp a <= / (1 - a)) as Ha by (apply exp_le_inv; unfold a; lra).
  apply Rle_trans with ((/ (1 - a)) ^ 1024).
  - apply pow_incr. split; [left; apply exp_pos|done].
  - rewrite pow_inv. set (c := 1 - a).
    assert (0.999324926 <= c) as H0 by (unfold c, a; lra).
    set (x1 := c * c).
    assert (0.998650307 <= x1) as H1 by (unfold x1; nra).
    set (x2 := x1 * x1).
    assert (0.997302435 <= x2) as H2 by (unfold x2; nra).
    set (x3 := x2 * x2).
    assert (0.994612146 <= x3) as H3 by (unfold x3; nra).
    set (x4 := x3 * x3).
    assert (0.989253320 <= x4) as H4 by (unfold x4; nra).
    set (x5 := x4 * x4).
    assert (0.978622131 <= x5) as H5 by (unfold x5; nra).
    set (x6 := x5 * x5).
    assert (0.957701275 <= x6) as H6 by (unfold x6; nra).
    set (x7 := x6 * x6).
    assert (0.917191732 <= x7) as H7 by (unfold x7; nra).
    set (x8 := x7 * x7).
    assert (0.841240673 <= x8) as H8 by (unfold x8; nra).
    set (x9 := x8 * x8).
    assert (0.707685869 <= x9) as H9 by (unfold x9; nra).
    set (x10 := x9 * x9).
    assert (0.500819289 <= x10) as H10 by (unfold x10; nra).
    replace (c ^ 1024) with x10
      by (unfold x10, x9, x8, x7, x6, x5, x4, x3, x2, x1; ring).
    rewrite <- (Rinv_inv 2). apply Rinv_le_contravar; lra.
Qed.

Lemma softplus_le (x y : R) : x <= y → softplus x <= softplus y.
Proof.
  intros [Hlt| ->]; [left; by apply softplus_increasing|right; done].
Qed.

(** ** The multiplier in float32 *)

Lemma exp_m103_ge : 2 * F32.tiny <= exp (-103).
Proof.
  replace (-103) with (- (103)) by lra.
  rewrite exp_Ropp. unfold F32.tiny.
  replace (2 * / 2 ^ 150) with (/ 2 ^ 149) by (simpl; field).
  apply Rinv_le_contravar; [apply exp_pos|apply exp_103_le].
Qed.

Lemma exp_m104_le : exp (-104) <= F32.tiny.
Proof.
  replace (-104) with (- (104)) by lra.
  rewrite exp_Ropp. unfold F32.tiny.
  apply Rinv_le_contravar; [apply pow_lt; lra|apply exp_104_ge].
Qed.

(** The float32 multiplier of a finite parameter. *)
Lemma multiplier32_fin (raw : R) :
  ∃ m, multiplier32 (F32.Fin raw) = F32.Fin m
       ∧ 0 <= m
       ∧ (2 * F32.tiny <= exp raw → 0 < m)
       ∧ (exp raw <= F32.tiny → m = 0).
Proof.
  unfold multiplier32.
  pose proof tiny_pos as Htp. pose proof tiny_lt as Hts.
  pose proof huge_direct as Hh. pose proof exp_20_le as H20.
  pose proof exp_20_ge as H20'. pose proof (exp_pos raw) as Hp.
  destruct (Rlt_dec 20 raw) as [Hgt|Hle].
  - exists raw. rewrite softplus32_fin. destruct (Rlt_dec 20 raw); [|done].
    apply exp_increasing in Hgt. repeat split; lra.
  - apply Rnot_lt_le in Hle.
    destruct (Rle_dec (2 * F32.tiny) (exp raw)) as [Hbig|Hsmall].
    { exists (softplus raw). rewrite softplus32_ideal by done.
      pose proof (softplus_pos raw). repeat split; lra. }
    destruct (Rle_dec (exp raw) F32.tiny) as [Hzero|Hmid].
    { exists 0. rewrite softplus32_underflow by done. repeat split; lra. }
    rewrite softplus32_fin. destruct (Rlt_dec 20 raw); [lra|].
    rewrite of_real_pos by lra. rewrite log1pf_fin by lra.
    pose proof (ln_le_minus_1 (1 + exp raw) ltac:(lra)) as Hup.
    assert (0 < ln (1 + exp raw)) as Hlo.
    { rewrite <- ln_1. apply ln_increasing; lra. }
    destruct (Rle_dec (Rabs (ln (1 + exp raw))) F32.tiny) as [Hz|Hnz].
    + exists 0. rewrite of_real_zero by done. repeat split; lra.
    + exists (ln (1 + exp raw)).
      rewrite of_real_fin by lra. repeat split; lra.
Qed.

(** ** The parameter after construction *)

Lemma ln_1e6_bounds : -1e6 <= ln 1e-6 <= -0.9.
Proof.
  replace 1e-6 with (/ 1e6) by lra. rewrite ln_Rinv by lra.
  pose proof (ln_le_minus_1 1e6 ltac:(lra)).
  pose proof (ln_ge_1_minus_inv 1e6 ltac:(lra)). lra.
Qed.

Lemma logf_1e6 : F32.logf (F32.Fin 1e-6) = F32.Fin (ln 1e-6).
Proof.
  pose proof ln_1e6_bounds. pose proof tiny_lt. pose proof huge_gt.
  rewrite logf_fin by lra. apply of_real_fin; [|lra].
  rewrite Rabs_left; lra.
Qed.

(** Below the clamp of [inv_softplus]. *)
Lemma initial_lag32_clamped (v : R) :
  exp v - 1 <= 1e-6 → initial_lag32 v = F32.Fin (ln 1e-6).
Proof.
  intros Hv. unfold initial_lag32, F32.inv_softplus.
  pose proof huge_gt as Hh. pose proof (exp_pos v) as Hp.
  assert (F32.clamp_min 1e-6 (F32.expm1f (F32.of_real v)) = F32.Fin 1e-6)
    as ->; [|apply logf_1e6].
  assert (∀ x, x <= 1e-6 → F32.clamp_min 1e-6 (F32.of_real x) = F32.Fin 1e-6)
    as Hclamp.
  { intros x Hx. unfold F32.of_real.
    destruct (Rle_dec (Rabs x) F32.tiny); simpl.
    { by rewrite Rmax_right by lra. }
    destruct (Rle_dec F32.huge x); [lra|].
    destruct (Rle_dec x (- F32.huge)); simpl; [done|].
    by rewrite Rmax_right. }
  unfold F32.of_real at 1.
  destruct (Rle_dec (Rabs v) F32.tiny); simpl.
  { apply Hclamp. rewrite exp_0. lra. }
  destruct (Rle_dec F32.huge v) as [Hbig|_].
  { pose proof (exp_ineq1_le v). lra. }
  destruct (Rle_dec v (- F32.huge)); simpl.
  { by rewrite Rmax_right by lra. }
  by apply Hclamp.
Qed.

Lemma multiplier32_clamped :
  multiplier32 (F32.Fin (ln 1e-6)) = F32.Fin (ln (1 + 1e-6)).
Proof.
  pose proof ln_1e6_bounds. pose proof tiny_lt.
  unfold multiplier32. rewrite softplus32_ideal.
  - by rewrite softplus_ln by lra.
  - rewrite exp_ln; lra.
  - lra.
Qed.

(** Above the overflow of [expm1]. *)
Lemma initial_lag32_overflow (v : R) :
  F32.huge <= exp v - 1 → initial_lag32 v = F32.PInf.
Proof.
  intros Hv. unfold initial_lag32, F32.inv_softplus.
  pose proof huge_gt as Hh. pose proof tiny_lt as Ht.
  assert (1 < v) as Hv1.
  { destruct (Rlt_dec 1 v) as [|Hn]; [done|]. apply Rnot_lt_le in Hn.
    assert (exp v <= exp 1) as Hle.
    { destruct Hn as [Hn| ->]; [left; by apply exp_increasing|lra]. }
    pose proof exp_le_3. lra. }
  assert (F32.expm1f (F32.of_real v) = F32.PInf) as ->; [|done].
  unfold F32.of_real.
  destruct (Rle_dec (Rabs v) F32.tiny) as [Hz|_].
  { rewrite Rabs_right in Hz; lra. }
  destruct (Rle_dec F32.huge v); [done|].
  destruct (Rle_dec v (- F32.huge)); [lra|].
  simpl. by apply of_real_inf.
Qed.

(** In between. *)
Lemma initial_lag32_in_range (v : R) :
  1e-6 <= exp v - 1 < F32.huge →
  initial_lag32 v = F32.of_real (ln (exp v - 1)).
Proof.
  intros [Hlo Hhi]. unfold initial_lag32, F32.inv_softplus.
  pose proof huge_gt as Hh. pose proof tiny_lt as Ht.
  pose proof (exp_ineq1_le v) as Hle.
  assert (1e-7 < v) as Hv.
  { destruct (Rlt_dec 1e-7 v) as [|Hn]; [done|]. apply Rnot_lt_le in Hn.
    assert (exp v <= exp 1e-7) as Hexp.
    { destruct Hn as [Hn| ->]; [left; by apply exp_increasing|lra]. }
    pose proof (exp_le_inv 1e-7 ltac:(lra)) as Hm.
    assert (/ (1 - 1e-7) <= 1 + 2e-7) as Hq.
    { rewrite <- (Rinv_inv (1 + 2e-7)). apply Rinv_le_contravar.
      - apply Rinv_0_lt_compat. lra.
      - apply Rmult_le_reg_r with (1 + 2e-7); [lra|].
        rewrite Rinv_l by lra. lra. }
    lra. }
  rewrite of_real_pos by lra. simpl.
  rewrite of_real_pos by lra. simpl.
  rewrite Rmax_left by lra. apply logf_fin. lra.
Qed.

Lemma softplus_shift (x : R) : softplus x = x + softplus (- x).
Proof.
  unfold softplus. pose proof (exp_pos x) as Hp. pose proof (exp_pos (- x)).
  rewrite <- (ln_exp x) at 2. rewrite <- ln_mult by lra. f_equal.
  rewrite Rmult_plus_distr_l, <- exp_plus, Rplus_opp_r, exp_0. lra.
Qed.

(** [softplus] moves by no more than its argument. *)
Lemma softplus_lipschitz (x y : R) :
  Rabs (softplus x - softplus y) <= Rabs (x - y).
Proof.
  assert (∀ a b, a <= b →
            0 <= softplus b - softplus a <= b - a) as Hmono.
  { intros a b Hab. split; [pose proof (softplus_le a b Hab); lra|].
    rewrite (softplus_shift a), (softplus_shift b).
    pose proof (softplus_le (- b) (- a) ltac:(lra)). lra. }
  destruct (Rle_dec x y) as [Hxy|Hxy].
  - destruct (Hmono x y Hxy). rewrite !Rabs_left1; lra.
  - destruct (Hmono y x ltac:(lra)). rewrite !Rabs_right; lra.
Qed.

Lemma softplus_expm1 (v : R) : 0 < exp v - 1 → softplus (ln (exp v - 1)) = v.
Proof.
  intros Hv. rewrite softplus_ln by done.
  replace (1 + (exp v - 1)) with (exp v) by lra. apply ln_exp.
Qed.

(** The multiplier of a parameter set inside the range. *)
Lemma multiplier32_in_range (v : R) :
  1e-6 <= exp v - 1 < F32.huge →
  0 < v
  ∧ ∃ m, multiplier32 (F32.of_real (ln (exp v - 1))) = F32.Fin m
         ∧ Rabs (m - v) <= v / 2 ^ 24.
Proof.
  intros [Hlo Hhi]. unfold multiplier32.
  pose proof huge_gt as Hh. pose proof tiny_lt as Ht. pose proof tiny_pos.
  pose proof (exp_ineq1_le v) as Hle.
  set (r := ln (exp v - 1)).
  assert (softplus r = v) as Hsp by (apply softplus_expm1; lra).
  assert (exp r = exp v - 1) as Her by (unfold r; rewrite exp_ln; lra).
  assert (9e-7 <= v) as Hv.
  { rewrite <- Hsp. unfold softplus. rewrite Her.
    pose proof (ln_ge_1_minus_inv (1 + (exp v - 1)) ltac:(lra)) as Hln.
    assert (9e-7 <= 1 - / (1 + (exp v - 1))); [|lra].
    assert (/ (1 + (exp v - 1)) <= / (1 + 1e-6)); [|lra].
    apply Rinv_le_contravar; lra. }
  assert (- 1e6 <= r < F32.huge) as [Hrlo Hrhi].
  { unfold r. split.
    - pose proof ln_1e6_bounds.
      assert (ln 1e-6 <= ln (exp v - 1)); [|lra].
      destruct Hlo as [Hlo| <-]; [left; apply ln_increasing; lra|lra].
    - pose proof (ln_le_minus_1 (exp v - 1) ltac:(lra)). lra. }
  assert (0 <= v / 2 ^ 24) as Htol by lra.
  split; [lra|].
  destruct (Rle_dec (Rabs r) F32.tiny) as [Hz|Hnz].
  - (* the parameter underflows to 0 *)
    rewrite of_real_zero by done. exists (softplus 0). split.
    + apply softplus32_ideal; [rewrite exp_0|]; lra.
    + rewrite <- Hsp.
      eapply Rle_trans; [apply softplus_lipschitz|].
      rewrite Rminus_0_l, Rabs_Ropp.
      apply Rle_trans with F32.tiny; [done|].
      apply Rle_trans with (9e-7 / 2 ^ 24); [lra|].
      unfold Rdiv. apply Rmult_le_compat_r; [|lra].
      left. apply Rinv_0_lt_compat. lra.
  - rewrite of_real_fin by lra. rewrite softplus32_fin.
    destruct (Rlt_dec 20 r) as [Hgt|Hle20].
    + (* above the threshold the parameter itself is returned *)
      exists r. split; [done|].
      assert (0 < v - r <= / 2 ^ 20) as [Hd1 Hd2].
      { rewrite <- Hsp, softplus_shift.
        pose proof (softplus_pos (- r)). split; [lra|].
        replace (r + softplus (- r) - r) with (softplus (- r)) by lra.
        unfold softplus. pose proof (exp_pos (- r)) as Hp.
        pose proof (ln_le_minus_1 (1 + exp (- r)) ltac:(lra)).
        assert (exp (- r) <= / 2 ^ 20); [|lra].
        rewrite exp_Ropp. apply Rinv_le_contravar; [lra|].
        pose proof exp_20_ge. apply exp_increasing in Hgt. lra. }
      rewrite Rabs_left1 by lra.
      assert (r < v) by lra.
      apply Rle_trans with (/ 2 ^ 20); [lra|].
      apply Rle_trans with (20 / 2 ^ 24); [lra|].
      unfold Rdiv. apply Rmult_le_compat_r; [|lra].
      left. apply Rinv_0_lt_compat. lra.
    + (* the round trip proper *)
      exists v. rewrite Her. rewrite of_real_pos by lra.
      rewrite log1pf_fin by lra.
      replace (1 + (exp v - 1)) with (exp v) by lra. rewrite ln_exp.
      split; [apply of_real_pos; lra|].
      replace (v - v) with 0 by lra. rewrite Rabs_R0. lra.
Qed.

Lemma exp_1_le : exp 1 <= 2.73.
Proof.
  assert (INR 128 = 128) as H128 by (by rewrite INR_IZR_INZ).
  replace 1 with (INR 128 * (1 / 128)) by (rewrite H128; lra).
  clear H128. rewrite exp_nat_mult.
  pose proof (exp_le_inv (1 / 128) ltac:(lra)) as Ha.
  pose proof (exp_pos (1 / 128)) as Hp.
  set (c := exp (1 / 128)) in *.
  assert (c <= 1.007874016) as H0.
  { eapply Rle_trans; [exact Ha|]. rewrite <- (Rinv_inv 1.007874016).
    apply Rinv_le_contravar; [apply Rinv_0_lt_compat; lra|].
    apply Rmult_le_reg_r with 1.007874016; [lra|]. rewrite Rinv_l by lra. lra. }
  set (x1 := c * c).
  assert (0 < x1 <= 1.015810033) as H1 by (unfold x1; nra).
  set (x2 := x1 * x1).
  assert (0 < x2 <= 1.031870024) as H2 by (unfold x2; nra).
  set (x3 := x2 * x2).
  assert (0 < x3 <= 1.064755747) as H3 by (unfold x3; nra).
  set (x4 := x3 * x3).
  assert (0 < x4 <= 1.133704801) as H4 by (unfold x4; nra).
  set (x5 := x4 * x4).
  assert (0 < x5 <= 1.285286576) as H5 by (unfold x5; nra).
  set (x6 := x5 * x5).
  assert (0 < x6 <= 1.651961583) as H6 by (unfold x6; nra).
  set (x7 := x6 * x6).
  assert (0 < x7 <= 2.728977072) as H7 by (unfold x7; nra).
  replace (c ^ 128) with x7 by (unfold x7, x6, x5, x4, x3, x2, x1; ring).
  lra.
Qed.

Lemma exp_88_lt : exp 88 < F32.huge.
Proof.
  replace 88 with (INR 88 * 1) by (simpl; lra). rewrite exp_nat_mult.
  apply Rle_lt_trans with (2.73 ^ 88).
  - apply pow_incr. split; [left; apply exp_pos|apply exp_1_le].
  - unfold F32.huge. lra.
Qed.

(** The three cases in numbers. *)
Lemma initial_value_cases (v : R) :
  (v <= 9e-7 → exp v - 1 <= 1e-6)
  ∧ (1e-6 <= v <= 88 → 1e-6 <= exp v - 1 < F32.huge)
  ∧ (100 <= v → F32.huge <= exp v - 1).
Proof.
  pose proof (exp_ineq1_le v) as Hle. split; [|split].
  - intros Hv. pose proof (exp_le_inv v ltac:(lra)) as Hi.
    assert (/ (1 - v) <= 1 + 1e-6); [|lra].
    rewrite <- (Rinv_inv (1 + 1e-6)). apply Rinv_le_contravar.
    + apply Rinv_0_lt_compat. lra.
    + apply Rmult_le_reg_r with (1 + 1e-6); [lra|].
      rewrite Rinv_l by lra. nra.
  - intros [Hlo Hhi]. split; [lra|].
    assert (exp v <= exp 88) as He.
    { destruct Hhi as [Hhi| ->]; [left; by apply exp_increasing|lra]. }
    pose proof exp_88_lt. lra.
  - intros Hv. assert (exp 100 <= exp v) as He.
    { destruct Hv as [Hv| <-]; [left; by apply exp_increasing|lra]. }
    pose proof exp_100_ge. lra.
Qed.

(** C4 (as the code has it): the multiplier that [NaiveLagrange.get] and
    [PPOLagLoss.lagrangian] report for a finite raw parameter is finite and
    never negative.  It is strictly positive whenever [exp(raw)] is at least
    the smallest positive float32, [2^-149], which holds from [raw = -103]
    upwards; it is zero whenever [exp(raw)] is at most [2^-150] and rounds
    to zero, which holds from [raw = -104] downwards. *)
Theorem multiplier_positive_above_underflow (raw : R) :
  ∃ m, multiplier32 (F32.Fin raw) = F32.Fin m
       ∧ 0 <= m
       ∧ (2 * F32.tiny <= exp raw → 0 < m)
       ∧ (exp raw <= F32.tiny → m = 0)
       ∧ (-103 <= raw → 0 < m)
       ∧ (raw <= -104 → m = 0).
Proof.
  destruct (multiplier32_fin raw) as (m & Hm & H0 & Hpos & Hzero).
  exists m. repeat split; [done..| |].
  - intros Hr. apply Hpos. pose proof exp_m103_ge.
    assert (exp (-103) <= exp raw); [|lra].
    destruct Hr as [Hr| <-]; [left; by apply exp_increasing|lra].
  - intros Hr. apply Hzero. pose proof exp_m104_le.
    assert (exp raw <= exp (-104)); [|lra].
    destruct Hr as [Hr| ->]; [left; by apply exp_increasing|lra].
Qed.

(** C5 (as the code has it): the multiplier immediately after construction.
    While [exp(initial_value) - 1] is at least the clamp [1e-6] of
    [inv_softplus] and does not overflow float32, which holds for
    [initial_value] from [1e-6] to [88], the multiplier is [initial_value]
    within the relative tolerance [1e-5].  Below the clamp it is
    [log(1 + 1e-6)] whatever the initial value, and where [expm1]
    overflows it is infinite.  The same for the [lag] parameter of
    [PPOLagLoss]. *)
Theorem initial_multiplier_cases (initial_value : R) :
  (exp initial_value - 1 <= 1e-6 →
     multiplier32 (initial_lag32 initial_value) = F32.Fin (ln (1 + 1e-6)))
  ∧ (1e-6 <= exp initial_value - 1 < F32.huge →
     ∃ m, multiplier32 (initial_lag32 initial_value) = F32.Fin m
          ∧ Rabs (m - initial_value) <= 1e-5 * initial_value)
  ∧ (F32.huge <= exp initial_value - 1 →
     multiplier32 (initial_lag32 initial_value) = F32.PInf)
  ∧ (1e-6 <= initial_value <= 88 →
     1e-6 <= exp initial_value - 1 < F32.huge).
Proof.
  split; [|split; [|split]].
  - intros Hv. rewrite initial_lag32_clamped by done.
    apply multiplier32_clamped.
  - intros Hv. rewrite initial_lag32_in_range by done.
    destruct (multiplier32_in_range initial_value Hv) as (Hpos & m & Hm & Hd).
    exists m. split; [done|]. lra.
  - intros Hv. by rewrite initial_lag32_overflow.
  - apply initial_value_cases.
Qed.

(** ** Dual ascent *)

Lemma softplus_grad_pos (x : R) : 0 < softplus_grad x.
Proof.
  unfold softplus_grad. pose proof (exp_pos x).
  apply Rdiv_lt_0_compat; lra.
Qed.

(** [softplus_grad] is the derivative of [softplus]. *)
Lemma softplus_derivative (x : R) :
  derivable_pt_lim softplus x (softplus_grad x).
Proof.
  pose proof (exp_pos x) as Hx.
  assert (derivable_pt_lim (λ y, 1 + exp y) x (0 + exp x)) as Hin.
  { apply (derivable_pt_lim_plus (λ _, 1) exp).
    - apply derivable_pt_lim_const.
    - apply derivable_pt_lim_exp. }
  pose proof (derivable_pt_lim_comp (λ y, 1 + exp y) ln x _ _ Hin
                (derivable_pt_lim_ln (1 + exp x) ltac:(lra))) as Hc.
  replace (softplus_grad x) with (/ (1 + exp x) * (0 + exp x)).
  - exact Hc.
  - unfold softplus_grad. field. lra.
Qed.

(** The gradient of a dual loss [-softplus(raw) * k] with respect to the raw
    parameter. *)
Lemma dual_loss_derivative (raw k : R) :
  derivable_pt_lim (λ r, - softplus r * k) raw (- softplus_grad raw * k).
Proof.
  replace (- softplus_grad raw * k) with (softplus_grad raw * (- k)) by lra.
  eapply derivable_pt_lim_ext;
    [|apply (derivable_pt_lim_scal_right softplus); apply softplus_derivative].
  intros r. simpl. lra.
Qed.

Lemma lagrangian_loss_derivative (raw av cost_scale : R) :
  derivable_pt_lim (λ r, NaiveLagrange.lagrangian_loss r av cost_scale) raw
    (- softplus_grad raw * (av * cost_scale)).
Proof.
  eapply derivable_pt_lim_ext; [|apply dual_loss_derivative].
  intros r. unfold NaiveLagrange.lagrangian_loss, NaiveLagrange.proj.
  simpl. lra.
Qed.

(** A gradient step on [-softplus(raw) * k] moves the multiplier in the
    direction of the sign of [k]. *)
Lemma dual_step_monotone (lr raw k g : R) :
  0 < lr →
  derivable_pt_lim (λ r, - softplus r * k) raw g →
  (0 < k → softplus raw <= softplus (Spec.gradient_step lr raw g))
  ∧ (k < 0 → softplus (Spec.gradient_step lr raw g) <= softplus raw).
Proof.
  intros Hlr Hg.
  rewrite (uniqueness_limite _ _ _ _ Hg (dual_loss_derivative raw k)).
  unfold Spec.gradient_step.
  pose proof (softplus_grad_pos raw) as Hs.
  assert (0 < lr * softplus_grad raw) as Hp by (by apply Rmult_lt_0_compat).
  split; intros Hk; left; apply softplus_increasing; nra.
Qed.

(** C3: one gradient-descent step with a positive learning rate on the dual
    loss [-softplus(raw) * avg_violation * cost_scale] of [NaiveLagrange]
    (positive [cost_scale]; [g] is the gradient of that loss at the raw
    parameter) does not decrease the multiplier when [avg_violation > 0] and
    does not increase it when [avg_violation < 0]; the same holds for the
    dual loss [-softplus(raw) * avg_violation] of [PPOLagLoss.forward]. *)
Theorem dual_ascent_monotone (lr avg_violation cost_scale g : R)
    (nl nl' : NaiveLagrange.t) :
  0 < lr → 0 < cost_scale →
  derivable_pt_lim
    (λ r, NaiveLagrange.lagrangian_loss r avg_violation cost_scale)
    (NaiveLagrange.lag nl) g →
  NaiveLagrange.lag nl' = Spec.gradient_step lr (NaiveLagrange.lag nl) g →
  ((0 < avg_violation → NaiveLagrange.get nl <= NaiveLagrange.get nl')
   ∧ (avg_violation < 0 → NaiveLagrange.get nl' <= NaiveLagrange.get nl))
  ∧ (∀ (Params Dist : Type) (self self' : @PPOLagLoss Params Dist) g',
       derivable_pt_lim (λ r, - softplus r * avg_violation) (lag self) g' →
       lag self' = Spec.gradient_step lr (lag self) g' →
       (0 < avg_violation → lagrangian self <= lagrangian self')
       ∧ (avg_violation < 0 → lagrangian self' <= lagrangian self)).
Proof.
  intros Hlr Hcs Hg Hstep. split.
  - unfold NaiveLagrange.get, NaiveLagrange.proj. rewrite Hstep.
    assert (derivable_pt_lim (λ r, - softplus r * (avg_violation * cost_scale))
              (NaiveLagrange.lag nl) g) as Hg'.
    { eapply derivable_pt_lim_ext; [|exact Hg].
      intros r. unfold NaiveLagrange.lagrangian_loss, NaiveLagrange.proj.
      simpl. lra. }
    destruct (dual_step_monotone lr _ _ g Hlr Hg') as [Hup Hdown].
    split; intros Hav; [apply Hup|apply Hdown]; nra.
  - intros Params Dist self self' g' Hg' Hstep'.
    unfold lagrangian, detach. rewrite Hstep'.
    by apply dual_step_monotone.
Qed.

(** ** Advantage normalization *)








(** ** Reasoning about heap computations *)

Lemma foldr_max_ge (l : list nat) (n : nat) :
  n ∈ l → (n <= foldr Nat.max 0 l)%nat.
Proof.
  induction l as [|m l IH]; intros Hin; [by apply elem_of_nil in Hin|].
  apply elem_of_cons in Hin as [->|Hin]; simpl; [lia|].
  specialize (IH Hin). lia.
Qed.

Lemma fresh_oid_fresh (h : heap) : h !! fresh_oid h = None.
Proof.
  destruct (h !! fresh_oid h) as [td|] eqn:Hlk; [|done].
  apply elem_of_map_to_list in Hlk.
  assert (fresh_oid h ∈ (map_to_list h).*1) as Hin.
  { apply list_elem_of_fmap. by exists (fresh_oid h, td). }
  apply foldr_max_ge in Hin. unfold fresh_oid in Hin. lia.
Qed.

Lemma fresh_oid_ne (h : heap) (o : oid) : is_Some (h !! o) → fresh_oid h ≠ o.
Proof. intros [td Hlk] <-. by rewrite fresh_oid_fresh in Hlk. Qed.

Lemma bind_ok {A B} (m : M A) (f : A → M B) (h : heap) (b : B) (h' : heap) :
  (m ≫= f) h = Ok (b, h') → ∃ a h1, m h = Ok (a, h1) ∧ f a h1 = Ok (b, h').
Proof.
  unfold mbind, M_bind. destruct (m h) as [[a h1]|e]; [|done]. eauto.
Qed.

Lemma bind_run {A B} (m : M A) (f : A → M B) (h : heap) (a : A) (h1 : heap) :
  m h = Ok (a, h1) → (m ≫= f) h = f a h1.
Proof. unfold mbind, M_bind. by intros ->. Qed.

Lemma bind_fail {A B} (m : M A) (f : A → M B) (h : heap) (e : exn) :
  m h = Err e → (m ≫= f) h = Err e.
Proof. unfold mbind, M_bind. by intros ->. Qed.

Lemma ret_ok {A} (a b : A) (h h' : heap) :
  mret (M := M) a h = Ok (b, h') → b = a ∧ h' = h.
Proof. unfold mret, M_ret. by intros [= -> ->]. Qed.

Lemma lift_ok {A} (r : result A) (a : A) (h h' : heap) :
  lift r h = Ok (a, h') → r = Ok a ∧ h' = h.
Proof. unfold lift. destruct r; [|done]. by intros [= -> ->]. Qed.

Lemma assert_ok (b : bool) (u : unit) (h h' : heap) :
  assert_ b h = Ok (u, h') → b = true ∧ h' = h.
Proof. unfold assert_. destruct b; [|done]. by intros [_ ->]%ret_ok. Qed.

Lemma td_get_ok (o : oid) (k : key) (t : Tensor) (h h' : heap) :
  td_get o k h = Ok (t, h') →
  h' = h ∧ ∃ td, h !! o = Some td ∧ td !! k = Some t.
Proof.
  unfold td_get, td_lookup. destruct (h !! o) as [td|]; [|done].
  destruct (td !! k) as [t'|] eqn:Hk; [|done]. intros [= -> ->]. eauto.
Qed.

Lemma td_set_ok (o : oid) (k : key) (v : Tensor) (u : unit) (h h' : heap) :
  td_set o k v h = Ok (u, h') →
  ∃ td, h !! o = Some td ∧ h' = <[o := <[k := v]> td]> h.
Proof.
  unfold td_set. destruct (h !! o) as [td|]; [|done]. intros [= _ <-]. eauto.
Qed.

Lemma td_call_with_ok {A} (f : TensorDict → result (A * TensorDict))
    (o : oid) (a : A) (h h' : heap) :
  td_call_with f o h = Ok (a, h') →
  ∃ td td', h !! o = Some td ∧ f td = Ok (a, td') ∧ h' = <[o := td']> h.
Proof.
  unfold td_call_with. destruct (h !! o) as [td|]; [|done].
  destruct (f td) as [[a' td']|] eqn:Hf; [|done]. intros [= -> <-]. eauto.
Qed.

Lemma td_call_ok (f : TensorDict → result TensorDict) (o : oid) (u : unit)
    (h h' : heap) :
  td_call f o h = Ok (u, h') →
  ∃ td td', h !! o = Some td ∧ f td = Ok td' ∧ h' = <[o := td']> h.
Proof.
  intros (td & td' & Hlk & Hf & ->)%td_call_with_ok.
  exists td, td'. destruct (f td); by simplify_eq.
Qed.

Lemma td_new_ok (o : oid) (h h' : heap) :
  td_new h = Ok (o, h') → o = fresh_oid h ∧ h' = <[o := ∅]> h.
Proof. unfold td_new. by intros [= <- <-]. Qed.

Lemma td_clone_ok (o o' : oid) (h h' : heap) :
  td_clone o h = Ok (o', h') →
  ∃ td, h !! o = Some td ∧ o' = fresh_oid h ∧ h' = <[o' := td]> h.
Proof.
  unfold td_clone. destruct (h !! o) as [td|]; [|done]. intros [= <- <-]. eauto.
Qed.

Lemma keeps_bind {A B} (o : oid) (k : key) (m : M A) (f : A → M B) :
  keeps o k m → (∀ a, keeps o k (f a)) → keeps o k (m ≫= f).
Proof.
  intros Hm Hf h b h' (a & h1 & H1 & H2)%bind_ok Ho.
  destruct (Hm _ _ _ H1 Ho) as [Ho1 E1].
  destruct (Hf a _ _ _ H2 Ho1) as [Ho2 E2].
  split; [done|]. by rewrite E2.
Qed.

Lemma keeps_ret {A} (o : oid) (k : key) (a : A) : keeps o k (mret a).
Proof. by intros h b h' [_ ->]%ret_ok Ho. Qed.

Lemma keeps_lift {A} (o : oid) (k : key) (r : result A) : keeps o k (lift r).
Proof. by intros h b h' [_ ->]%lift_ok Ho. Qed.

Lemma keeps_assert (o : oid) (k : key) (b : bool) : keeps o k (assert_ b).
Proof. by intros h u h' [_ ->]%assert_ok Ho. Qed.

Lemma keeps_get (o : oid) (k : key) (o' : oid) (k' : key) :
  keeps o k (td_get o' k').
Proof. by intros h t h' [-> _]%td_get_ok Ho. Qed.

Lemma keeps_set (o : oid) (k : key) (o' : oid) (k' : key) (v : Tensor) :
  o ≠ o' ∨ k ≠ k' → keeps o k (td_set o' k' v).
Proof.
  intros Hne h u h' (td & Hlk & ->)%td_set_ok Ho. unfold entry.
  destruct (decide (o = o')) as [->|Hoo].
  - rewrite lookup_insert_eq, Hlk. split; [done|]. simpl.
    apply lookup_insert_ne. destruct Hne; congruence.
  - by rewrite lookup_insert_ne.
Qed.

Lemma keeps_call_with {A} (o : oid) (k : key)
    (f : TensorDict → result (A * TensorDict)) (o' : oid) :
  o ≠ o' → keeps o k (td_call_with f o').
Proof.
  intros Hoo h a h' (td & td' & Hlk & _ & ->)%td_call_with_ok Ho.
  unfold entry. by rewrite lookup_insert_ne.
Qed.

Lemma keeps_call (o : oid) (k : key) (f : TensorDict → result TensorDict)
    (o' : oid) : o ≠ o' → keeps o k (td_call f o').
Proof. intros Hne. by apply keeps_call_with. Qed.

Create HintDb keeps.
#[local] Hint Resolve keeps_ret keeps_lift keeps_assert keeps_get
  keeps_call keeps_call_with : keeps.

Ltac keeps_step :=
  first
    [ apply keeps_bind; [|intros ?]
    | apply keeps_set; solve [auto]
    | solve [auto with keeps]
    | match goal with |- keeps _ _ (if ?b then _ else _) => destruct b end
    | match goal with |- keeps _ _ (let '(_, _) := ?p in _) => destruct p end ].

(** ** The clipped surrogate *)

Lemma clamp_above (lo hi x : R) : lo <= x → clamp lo hi x <= x.
Proof.
  intros Hlo. unfold clamp. rewrite Rmax_left by done. apply Rmin_l.
Qed.

Lemma clamp_below (lo hi x : R) : x < lo → lo <= hi → clamp lo hi x = lo.
Proof.
  intros Hx Hlh. unfold clamp. rewrite Rmax_right by lra. by apply Rmin_left.
Qed.

Lemma exp_le (x y : R) : x <= y → exp x <= exp y.
Proof. intros [Hlt| ->]; [left; by apply exp_increasing|right; done]. Qed.

(** C7 (as the code has it): the reward surrogate gain, the minimum of the
    unclipped and the clipped gain, never exceeds either of them; and for a
    log-weight not below the lower clip bound the clipped gain is at most
    the unclipped gain when the advantage is non-negative and at least the
    unclipped gain when the advantage is negative. *)
Theorem clipped_gain_above_lower_bound (lo hi log_weight adv : R) :
  let unclipped := exp log_weight * adv in
  let clipped := exp (clamp lo hi log_weight) * adv in
  Rmin unclipped clipped <= unclipped
  ∧ Rmin unclipped clipped <= clipped
  ∧ (lo <= log_weight →
     (0 <= adv → clipped <= unclipped) ∧ (adv < 0 → clipped >= unclipped)).
Proof.
  intros unclipped clipped. subst unclipped clipped.
  split; [apply Rmin_l|]. split; [apply Rmin_r|]. intros Hlo.
  pose proof (exp_le _ _ (clamp_above lo hi log_weight Hlo)) as He.
  pose proof (exp_pos (clamp lo hi log_weight)).
  split; intros Hadv; nra.
Qed.

(** C7 fails as stated: with ratio bounds [exp(-1) < 1 < exp(1)], a
    log-weight of [-2] and advantage [1], the clipped gain [exp(-1)] exceeds
    the unclipped gain [exp(-2)]. *)
Lemma clipped_gain_not_pessimistic : ¬ Spec.clipped_gain_pessimistic.
Proof.
  intros Hclaim.
  assert (0 < exp (-1) < 1) as Hlow.
  { split; [apply exp_pos|]. rewrite <- exp_0. apply exp_increasing. lra. }
  assert (1 < exp 1) as Hhigh.
  { rewrite <- exp_0 at 1. apply exp_increasing. lra. }
  destruct (Hclaim (exp (-1)) (exp 1) (-2) 1 Hlow Hhigh) as [Hle _].
  specialize (Hle ltac:(lra)).
  rewrite !ln_exp, clamp_below in Hle by lra.
  pose proof (exp_increasing (-2) (-1) ltac:(lra)). lra.
Qed.

(** ** The actor loss *)

Lemma actor_terms_zip (lam lo hi : R) (lw ra ca : list R) :
  zip_with Rplus
    (map Ropp
       (zip_with Rmin
          (zip_with Rmult (map exp lw) ra)
          (zip_with Rmult (map exp (map (clamp lo hi) lw)) ra)))
    (map (Rmult lam) (zip_with Rmult (map exp lw) ca))
  = Spec.actor_terms lam lo hi lw ra ca.
Proof.
  revert ra ca. induction lw as [|w ws IH]; intros ra ca; [done|].
  destruct ra as [|r rs]; [done|]. destruct ca as [|c cs]; [done|].
  simpl. by rewrite IH.
Qed.

Lemma actor_loss_refines (lam lo hi : R) (log_weight r_adv c_adv : Tensor) :
  actor_loss lam (lo, hi) log_weight r_adv c_adv
  = Spec.actor_loss lam lo hi (data log_weight) (data r_adv) (data c_adv).
Proof.
  unfold actor_loss, Spec.actor_loss, mean. simpl.
  by rewrite actor_terms_zip.
Qed.

(** ** The stages of [forward] *)

Section Stages.

Context {Params Dist : Type}.

Implicit Types (self : @PPOLagLoss Params Dist) (h : heap) (o : oid) (k : key).

Lemma forward_lagrangian_keeps self tdict td_out train o k :
  o ≠ td_out ∨ (k ≠ ["loss_lagrangian"] ∧ k ≠ ["lagrangian"]) →
  keeps o k (forward_lagrangian self tdict td_out train).
Proof.
  intros Hne. unfold forward_lagrangian.
  repeat keeps_step; apply keeps_set; tauto.
Qed.

Lemma forward_estimators_keeps self tdict tmp_td o k :
  o ≠ tmp_td → keeps o k (forward_estimators self tdict tmp_td).
Proof. intros Hne. unfold forward_estimators. repeat keeps_step. Qed.

Lemma forward_advantages_keeps self tmp_td o k :
  keeps o k (forward_advantages self tmp_td).
Proof. unfold forward_advantages. repeat keeps_step. Qed.

Lemma forward_actor_keeps self tmp_td td_out r c o k :
  o ≠ tmp_td → o ≠ td_out ∨ k ≠ ["loss_pi"] →
  keeps o k (forward_actor self tmp_td td_out r c).
Proof. intros Htmp Hout. unfold forward_actor. repeat keeps_step. Qed.

Lemma forward_entropy_keeps self td_out dist o k :
  o ≠ td_out ∨ (k ≠ ["loss_entropy"] ∧ k ≠ ["entropy"]) →
  keeps o k (forward_entropy self td_out dist).
Proof.
  intros Hne. unfold forward_entropy.
  repeat keeps_step; apply keeps_set; tauto.
Qed.

(** A successful run of [forward_batch], step by step. *)
Lemma forward_batch_inv self tdict train h tmp_td td_out r c h1 :
  forward_batch self tdict train h = Ok ((tmp_td, td_out, r, c), h1) →
  ∃ td hl he,
    h !! tdict = Some td
    ∧ tmp_td = fresh_oid h
    ∧ td_out = fresh_oid (<[tmp_td := td]> h)
    ∧ forward_lagrangian self tdict td_out train
        (<[td_out := ∅]> (<[tmp_td := td]> h)) = Ok (tt, hl)
    ∧ forward_estimators self tdict tmp_td hl = Ok (tt, he)
    ∧ forward_advantages self tmp_td he = Ok ((r, c), h1).
Proof.
  unfold forward_batch. intros Hrun.
  apply bind_ok in Hrun as (tmp & ha & (td & Htd & -> & ->)%td_clone_ok & Hrun).
  apply bind_ok in Hrun as (out & hb & [-> ->]%td_new_ok & Hrun).
  apply bind_ok in Hrun as ([] & hl & Hl & Hrun).
  apply bind_ok in Hrun as ([] & he & He & Hrun).
  apply bind_ok in Hrun as ([r' c'] & h1' & Ha & Hrun).
  apply ret_ok in Hrun as [[= -> -> -> ->] ->].
  exists td, hl, he. done.
Qed.

(** The three objects of a run are distinct, and all exist once
    [forward_batch] is through. *)
Lemma forward_batch_objects self tdict train h tmp_td td_out r c h1 :
  forward_batch self tdict train h = Ok ((tmp_td, td_out, r, c), h1) →
  tmp_td ≠ tdict ∧ td_out ≠ tdict ∧ td_out ≠ tmp_td
  ∧ is_Some (h1 !! tdict) ∧ is_Some (h1 !! td_out).
Proof.
  intros (td & hl & he & Htd & -> & -> & Hl & He & Ha)%forward_batch_inv.
  set (tmp := fresh_oid h) in *.
  set (out := fresh_oid (<[tmp := td]> h)) in *.
  assert (tmp ≠ tdict) as Htmp by (apply fresh_oid_ne; eauto).
  assert (out ≠ tmp) as Hot.
  { apply fresh_oid_ne. rewrite lookup_insert_eq. eauto. }
  assert (out ≠ tdict) as Hout.
  { apply fresh_oid_ne. rewrite lookup_insert_ne by done. eauto. }
  assert (∀ o, o ≠ tmp →
            is_Some ((<[out := ∅]> (<[tmp := td]> h) : heap) !! o) →
            is_Some (h1 !! o)) as Hkept.
  { intros o Ho H0.
    destruct (forward_lagrangian_keeps self tdict out train o []
                ltac:(by right) _ _ _ Hl H0) as [H1 _].
    destruct (forward_estimators_keeps self tdict tmp o [] Ho _ _ _ He H1)
      as [H2 _].
    by destruct (forward_advantages_keeps self tmp o [] _ _ _ Ha H2). }
  repeat split; [done..| |].
  - apply Hkept; [done|]. rewrite !lookup_insert_ne by done. eauto.
  - apply Hkept; [done|]. rewrite lookup_insert_eq. eauto.
Qed.

(** What [forward_batch] leaves in an entry of the caller's batch and in the
    ["loss_lagrangian"] entry of [td_out]. *)
Lemma forward_batch_entries self tdict train h tmp_td td_out r c h1 :
  forward_batch self tdict train h = Ok ((tmp_td, td_out, r, c), h1) →
  (∀ k, entry h1 tdict k = entry h tdict k)
  ∧ if train
    then ∃ av, entry h tdict ["avg_violation"] = Some av
               ∧ entry h1 td_out ["loss_lagrangian"]
                 = Some (scalar (- softplus (lag self) * mean av))
    else entry h1 td_out ["loss_lagrangian"] = None.
Proof.
  intros Hrun.
  destruct (forward_batch_objects _ _ _ _ _ _ _ _ _ Hrun)
    as (Htmp & Hout & Hot & _ & _).
  apply forward_batch_inv in Hrun
    as (td & hl & he & Htd & -> & -> & Hl & He & Ha).
  set (tmp := fresh_oid h) in *.
  set (out := fresh_oid (<[tmp := td]> h)) in *.
  set (hb := (<[out := ∅]> (<[tmp := td]> h) : heap)) in *.
  assert (hb !! tdict = Some td) as Hb.
  { unfold hb. by rewrite !lookup_insert_ne. }
  assert (hb !! out = Some ∅) as Hbo by apply lookup_insert_eq.
  split.
  - intros k.
    destruct (forward_lagrangian_keeps self tdict out train tdict k
                ltac:(left; congruence) _ _ _ Hl ltac:(eauto)) as [H1 E1].
    destruct (forward_estimators_keeps self tdict tmp tdict k
                ltac:(congruence) _ _ _ He H1) as [H2 E2].
    destruct (forward_advantages_keeps self tmp tdict k _ _ _ Ha H2)
      as [H3 E3].
    rewrite E3, E2, E1. unfold entry. by rewrite Hb, Htd.
  - destruct (forward_lagrangian_keeps self tdict out train out []
                ltac:(by right) _ _ _ Hl ltac:(eauto)) as [Hlo _].
    destruct (forward_estimators_keeps self tdict tmp out ["loss_lagrangian"]
                Hot _ _ _ He Hlo) as [H2 E2].
    destruct (forward_advantages_keeps self tmp out ["loss_lagrangian"]
                _ _ _ Ha H2) as [H3 E3].
    rewrite E3, E2. clear E3 E2 H3 H2 Hlo He Ha.
    unfold forward_lagrangian in Hl.
    apply bind_ok in Hl as ([] & hm & Hm & (tdo & Ho & ->)%td_set_ok).
    assert (∀ (hx : heap) tdx, entry (<[out := <[["lagrangian"] :=
                scalar (lagrangian self)]> tdx]> hx) out ["loss_lagrangian"]
              = tdx !! ["loss_lagrangian"]) as Hset.
    { intros hx tdx. unfold entry. rewrite lookup_insert_eq. simpl.
      by rewrite lookup_insert_ne. }
    rewrite Hset. destruct train.
    + apply bind_ok in Hm as (av & hx & [-> (td' & Htd' & Hav)]%td_get_ok & Hm).
      apply td_set_ok in Hm as (tdo' & Ho' & ->).
      rewrite lookup_insert_eq in Ho. simplify_eq.
      exists av. split; [|apply lookup_insert_eq].
      unfold entry. rewrite Htd. done.
    + apply ret_ok in Hm as [_ ->]. by simplify_eq.
Qed.

(** A successful run of [forward_actor]. *)
Lemma forward_actor_inv self tmp_td td_out r c h1 dist h2 :
  forward_actor self tmp_td td_out r c h1 = Ok (dist, h2) →
  ∃ td log_weight td',
    h1 !! tmp_td = Some td
    ∧ _log_weight (super self) td = Ok ((log_weight, dist), td')
    ∧ shape c = shape log_weight ∧ shape r = shape log_weight
    ∧ (tmp_td ≠ td_out →
       entry h2 td_out ["loss_pi"]
       = Some (scalar (actor_loss (lagrangian self) (_clip_bounds (super self))
                         log_weight r c))).
Proof.
  unfold forward_actor. intros Hrun.
  apply bind_ok in Hrun as ([lw d] & ha & Hw & Hrun).
  apply td_call_with_ok in Hw as (td & td' & Htd & Hw & ->).
  apply bind_ok in Hrun as ([] & hb & [Hs ->]%assert_ok & Hrun).
  apply bind_ok in Hrun as ([] & hc & (tdo & Ho & ->)%td_set_ok & Hrun).
  apply ret_ok in Hrun as [-> ->].
  apply andb_true_iff in Hs as [Hc%bool_decide_eq_true Hr%bool_decide_eq_true].
  exists td, lw, td'. repeat split; [done..|].
  intros Hne. unfold entry. rewrite lookup_insert_eq. simpl.
  apply lookup_insert_eq.
Qed.

(** The actor stage succeeds on advantages of the shape of the log-weight
    and writes the actor loss. *)
Lemma forward_actor_run self tmp_td td_out r c h1 td log_weight dist td' :
  h1 !! tmp_td = Some td → is_Some (h1 !! td_out) → tmp_td ≠ td_out →
  _log_weight (super self) td = Ok ((log_weight, dist), td') →
  shape c = shape log_weight → shape r = shape log_weight →
  ∃ h2, forward_actor self tmp_td td_out r c h1 = Ok (dist, h2)
        ∧ entry h2 td_out ["loss_pi"]
          = Some (scalar (actor_loss (lagrangian self)
                            (_clip_bounds (super self)) log_weight r c)).
Proof.
  intros Htd [tdo Ho] Hne Hw Hc Hr. unfold forward_actor.
  set (v := scalar (actor_loss (lagrangian self) (_clip_bounds (super self))
                      log_weight r c)).
  exists (<[td_out := <[["loss_pi"] := v]> tdo]> (<[tmp_td := td']> h1)).
  split.
  - rewrite (bind_run _ _ _ (log_weight, dist) (<[tmp_td := td']> h1)).
    2:{ unfold td_call_with. by rewrite Htd, Hw. }
    rewrite (bind_run _ _ _ () (<[tmp_td := td']> h1)).
    2:{ unfold assert_, shape_eqb. by rewrite !bool_decide_eq_true_2. }
    rewrite (bind_run _ _ _ ()
               (<[td_out := <[["loss_pi"] := v]> tdo]> (<[tmp_td := td']> h1))).
    2:{ unfold td_set. by rewrite lookup_insert_ne, Ho. }
    done.
  - unfold entry. rewrite lookup_insert_eq. simpl. apply lookup_insert_eq.
Qed.

(** The two slices of a two-channel reward tensor. *)
Lemma slice_channels (n : nat) (l : list R) :
  length l = (2 * n)%nat →
  slice_dim1 0 (Some 1%nat) (mkTensor [n; 2%nat] l)
  = Ok (mkTensor [n; 1%nat] (Spec.reward_channel l))
  ∧ slice_dim1 1 None (mkTensor [n; 2%nat] l)
    = Ok (mkTensor [n; 1%nat] (Spec.cost_channel l)).
Proof.
  intros Hlen. unfold slice_dim1. simpl.
  assert (∀ n l, length l = (2 * n)%nat →
            concat (map (λ row : list R, take 1 row) (rows n 2 l))
            = Spec.reward_channel l
            ∧ concat (map (λ row : list R, drop 1 (take 2 row)) (rows n 2 l))
              = Spec.cost_channel l) as Hrows.
  { clear. induction n as [|n IH]; intros l Hlen.
    - destruct l; [done|simpl in Hlen; lia].
    - destruct l as [|r [|c rest]]; [simpl in Hlen; lia..|].
      simpl in Hlen. destruct (IH rest ltac:(lia)) as [IH0 IH1].
      simpl. rewrite drop_0. by rewrite IH0, IH1. }
  destruct (Hrows n l Hlen) as [H0 H1]. split; f_equal; f_equal; done.
Qed.

(** The estimator stage, completely: the reward estimator is called on the
    object [tmp_td] with the first slice as reward, and the cost estimator
    is then called on the same object, as the reward estimator left it, with
    the second slice as reward. *)
Lemma forward_estimators_run self tdict tmp_td h td tmp reward r c :
  tdict ≠ tmp_td →
  h !! tdict = Some td → h !! tmp_td = Some tmp →
  td !! ["next"; "reward"] = Some reward →
  slice_dim1 0 (Some 1%nat) reward = Ok r →
  slice_dim1 1 None reward = Ok c →
  forward_estimators self tdict tmp_td h
  = match r_value_estimator self (critic_params (super self))
            (target_critic_params (super self))
            (<[ ["next"; "reward"] := r ]> tmp) with
    | Ok td1 =>
        match c_value_estimator self (safe_critic_params self)
                (target_safe_critic_params self)
                (<[ ["next"; "reward"] := c ]> td1) with
        | Ok td2 => Ok (tt, <[tmp_td := td2]> h)
        | Err e => Err e
        end
    | Err e => Err e
    end.
Proof.
  intros Hne Htd Htmp Hrew Hr Hc. unfold forward_estimators, detach.
  rewrite (bind_run _ _ _ reward h).
  2:{ unfold td_get, td_lookup. rewrite Htd. simpl. by rewrite Hrew. }
  rewrite (bind_run _ _ _ r h) by (by rewrite Hr).
  set (k := ["next"; "reward"]) in *.
  rewrite (bind_run _ _ _ () (<[tmp_td := <[k := r]> tmp]> h)).
  2:{ unfold td_set. by rewrite Htmp. }
  destruct (r_value_estimator self _ _ (<[k := r]> tmp)) as [td1|e] eqn:Hre.
  2:{ unfold mbind, M_bind, td_call, td_call_with.
      by rewrite lookup_insert_eq, Hre. }
  rewrite (bind_run _ _ _ () (<[tmp_td := td1]> h)).
  2:{ unfold td_call, td_call_with.
      by rewrite lookup_insert_eq, Hre, insert_insert_eq. }
  rewrite (bind_run _ _ _ reward (<[tmp_td := td1]> h)).
  2:{ unfold td_get, td_lookup. rewrite lookup_insert_ne, Htd by done.
      simpl. by rewrite Hrew. }
  rewrite (bind_run _ _ _ c (<[tmp_td := td1]> h)) by (by rewrite Hc).
  rewrite (bind_run _ _ _ () (<[tmp_td := <[k := c]> td1]> h)).
  2:{ unfold td_set. by rewrite lookup_insert_eq, insert_insert_eq. }
  unfold td_call, td_call_with. rewrite lookup_insert_eq.
  destruct (c_value_estimator self _ _ (<[k := c]> td1)) as [td2|e];
    [|done].
  by rewrite insert_insert_eq.
Qed.

Lemma forward_lagrangian_objects self tdict td_out train h h' o :
  forward_lagrangian self tdict td_out train h = Ok (tt, h') →
  o ≠ td_out → h' !! o = h !! o.
Proof.
  unfold forward_lagrangian. intros Hrun Hne.
  apply bind_ok in Hrun as ([] & hm & Hm & (tdo & Ho & ->)%td_set_ok).
  rewrite lookup_insert_ne by done. destruct train.
  - apply bind_ok in Hm as (av & hx & [-> _]%td_get_ok & Hm).
    apply td_set_ok in Hm as (tdo' & _ & ->). by rewrite lookup_insert_ne.
  - by apply ret_ok in Hm as [_ ->].
Qed.

Lemma forward_advantages_heap self tmp_td h r c h1 :
  forward_advantages self tmp_td h = Ok ((r, c), h1) → h1 = h.
Proof.
  unfold forward_advantages. intros Hrun.
  apply bind_ok in Hrun as (r0 & ha & [-> _]%td_get_ok & Hrun).
  apply bind_ok in Hrun as (c0 & hb & [-> _]%td_get_ok & Hrun).
  by apply ret_ok in Hrun as [_ ->].
Qed.

(** C9 (as the code has it): in every successful call the reward estimator
    has run, with the live and the target reward-critic parameters, on the
    clone of the batch whose reward is channel 0; the cost estimator has
    then run, with the live and the target cost-critic parameters, on that
    same clone as the reward estimator left it, with channel 1 as reward;
    the clone holds the result and the caller's batch is as before. *)
Theorem estimators_share_scratch self tdict train h tmp_td td_out r c h1 td
    (n : nat) (l : list R) :
  forward_batch self tdict train h = Ok ((tmp_td, td_out, r, c), h1) →
  h !! tdict = Some td →
  td !! ["next"; "reward"] = Some (mkTensor [n; 2%nat] l) →
  length l = (2 * n)%nat →
  ∃ td1 td2,
    r_value_estimator self (critic_params (super self))
      (target_critic_params (super self))
      (<[ ["next"; "reward"] := mkTensor [n; 1%nat] (Spec.reward_channel l) ]> td)
    = Ok td1
    ∧ c_value_estimator self (safe_critic_params self)
        (target_safe_critic_params self)
        (<[ ["next"; "reward"] := mkTensor [n; 1%nat] (Spec.cost_channel l) ]> td1)
      = Ok td2
    ∧ h1 !! tmp_td = Some td2
    ∧ h1 !! tdict = Some td.
Proof.
  intros Hb Htd Hrew Hlen.
  destruct (forward_batch_objects _ _ _ _ _ _ _ _ _ Hb)
    as (Htmp & Hout & Hot & _ & _).
  apply forward_batch_inv in Hb
    as (td' & hl & he & Htd' & Etmp & Eout & Hl & He & Ha).
  assert (td' = td) as -> by congruence.
  apply forward_advantages_heap in Ha as ->.
  assert (hl !! tdict = Some td) as Hltd.
  { rewrite (forward_lagrangian_objects _ _ _ _ _ _ _ Hl) by congruence.
    by rewrite !lookup_insert_ne. }
  assert (hl !! tmp_td = Some td) as Hltmp.
  { rewrite (forward_lagrangian_objects _ _ _ _ _ _ _ Hl) by congruence.
    rewrite lookup_insert_ne by done. apply lookup_insert_eq. }
  destruct (slice_channels n l Hlen) as [Hr Hc].
  rewrite (forward_estimators_run self tdict tmp_td hl td td _ _ _
             ltac:(congruence) Hltd Hltmp Hrew Hr Hc) in He.
  destruct (r_value_estimator self _ _ _) as [td1|] eqn:Hre; [|done].
  destruct (c_value_estimator self _ _ _) as [td2|] eqn:Hce; [|done].
  injection He as <-. exists td1, td2.
  repeat split; [done| |].
  - apply lookup_insert_eq.
  - by rewrite lookup_insert_ne.
Qed.

End Stages.

(** ** Whole runs of [forward] *)

Section Runs.

Context {Params Dist : Type}.
Variable distance_loss : Tensor → Tensor → string → result Tensor.

Implicit Types (self : @PPOLagLoss Params Dist) (h : heap) (o : oid) (k : key).

Lemma forward_critics_keeps self tmp_td td_out o k :
  o ≠ tmp_td →
  o ≠ td_out ∨ (k ≠ ["loss_r_critic"] ∧ k ≠ ["loss_c_critic"]) →
  keeps o k (forward_critics distance_loss self tmp_td td_out).
Proof.
  intros Htmp Hout. unfold forward_critics.
  repeat keeps_step; apply keeps_set; tauto.
Qed.

(** A successful run of [forward], stage by stage. *)
Lemma forward_inv self tdict train h out h' :
  forward distance_loss self tdict train h = Ok (out, h') →
  ∃ tmp_td r c h1 dist h2 h3,
    forward_batch self tdict train h = Ok ((tmp_td, out, r, c), h1)
    ∧ forward_actor self tmp_td out r c h1 = Ok (dist, h2)
    ∧ forward_entropy self out dist h2 = Ok (tt, h3)
    ∧ forward_critics distance_loss self tmp_td out h3 = Ok (tt, h').
Proof.
  unfold forward. intros Hrun.
  apply bind_ok in Hrun as ([[[tmp out'] r] c] & h1 & Hb & Hrun).
  apply bind_ok in Hrun as (dist & h2 & Ha & Hrun).
  apply bind_ok in Hrun as ([] & h3 & He & Hrun).
  apply bind_ok in Hrun as ([] & h4 & Hc & Hrun).
  apply ret_ok in Hrun as [-> ->].
  by exists tmp, r, c, h1, dist, h2, h3.
Qed.

(** What the stages after [forward_batch] leave in an entry. *)
Lemma forward_losses_keep self tmp_td td_out r c h1 dist h2 h3 h' o k :
  forward_actor self tmp_td td_out r c h1 = Ok (dist, h2) →
  forward_entropy self td_out dist h2 = Ok (tt, h3) →
  forward_critics distance_loss self tmp_td td_out h3 = Ok (tt, h') →
  o ≠ tmp_td →
  o ≠ td_out ∨ k = ["loss_lagrangian"] →
  is_Some (h1 !! o) →
  is_Some (h' !! o) ∧ entry h' o k = entry h1 o k.
Proof.
  intros Ha He Hc Htmp Hk Ho.
  destruct (forward_actor_keeps self tmp_td td_out r c o k Htmp
              ltac:(destruct Hk as [?| ->]; [by left|by right]) _ _ _ Ha Ho)
    as [H2 E2].
  destruct (forward_entropy_keeps self td_out dist o k
              ltac:(destruct Hk as [?| ->]; [by left|by right]) _ _ _ He H2)
    as [H3 E3].
  destruct (forward_critics_keeps self tmp_td td_out o k Htmp
              ltac:(destruct Hk as [?| ->]; [by left|by right]) _ _ _ Hc H3)
    as [H4 E4].
  split; [done|]. by rewrite E4, E3, E2.
Qed.

Lemma object_ext h h' o :
  is_Some (h !! o) → is_Some (h' !! o) →
  (∀ k, entry h' o k = entry h o k) → h' !! o = h !! o.
Proof.
  intros [td Htd] [td' Htd'] Hk. rewrite Htd, Htd'. f_equal.
  apply map_eq. intros k. specialize (Hk k). unfold entry in Hk.
  by rewrite Htd, Htd' in Hk.
Qed.

(** The caller's batch after a successful run. *)
Lemma forward_frame self tdict train h out h' :
  forward distance_loss self tdict train h = Ok (out, h') →
  out ≠ tdict ∧ h' !! tdict = h !! tdict.
Proof.
  intros (tmp & r & c & h1 & dist & h2 & h3 & Hb & Ha & He & Hc)%forward_inv.
  destruct (forward_batch_objects _ _ _ _ _ _ _ _ _ Hb)
    as (Htmp & Hout & Hot & H1 & Ho).
  destruct (forward_batch_entries _ _ _ _ _ _ _ _ _ Hb) as [Hk _].
  assert (is_Some (h !! tdict)) as Hin.
  { apply forward_batch_inv in Hb as (td & _ & _ & Htd & _). eauto. }
  split; [done|].
  assert (∀ k, is_Some (h' !! tdict) ∧ entry h' tdict k = entry h1 tdict k)
    as Hfin.
  { intros k. eapply forward_losses_keep; eauto. }
  apply object_ext; [done|apply (proj1 (Hfin []))|].
  intros k. rewrite <- Hk. apply (proj2 (Hfin k)).
Qed.

(** The ["loss_lagrangian"] output of a successful run. *)
Lemma forward_loss_lagrangian self tdict train h out h' :
  forward distance_loss self tdict train h = Ok (out, h') →
  if train
  then ∃ av, entry h tdict ["avg_violation"] = Some av
             ∧ entry h' out ["loss_lagrangian"]
               = Some (scalar (- softplus (lag self) * mean av))
  else entry h' out ["loss_lagrangian"] = None.
Proof.
  intros (tmp & r & c & h1 & dist & h2 & h3 & Hb & Ha & He & Hc)%forward_inv.
  destruct (forward_batch_objects _ _ _ _ _ _ _ _ _ Hb)
    as (Htmp & Hout & Hot & Hin & Ho).
  destruct (forward_batch_entries _ _ _ _ _ _ _ _ _ Hb) as [_ Hl].
  destruct (forward_losses_keep _ _ _ _ _ _ _ _ _ _ out ["loss_lagrangian"]
              Ha He Hc Hot ltac:(by right) Ho) as [_ E].
  by rewrite E.
Qed.

(** The ["loss_pi"] output of a successful run. *)
Lemma forward_loss_pi self tdict train h out h' :
  forward distance_loss self tdict train h = Ok (out, h') →
  ∃ tmp_td r c h1 td log_weight dist td',
    forward_batch self tdict train h = Ok ((tmp_td, out, r, c), h1)
    ∧ h1 !! tmp_td = Some td
    ∧ _log_weight (super self) td = Ok ((log_weight, dist), td')
    ∧ shape c = shape log_weight ∧ shape r = shape log_weight
    ∧ entry h' out ["loss_pi"]
      = Some (scalar (Spec.actor_loss (lagrangian self)
                        (_clip_bounds (super self)).1
                        (_clip_bounds (super self)).2
                        (data log_weight) (data r) (data c))).
Proof.
  intros (tmp & r & c & h1 & dist & h2 & h3 & Hb & Ha & He & Hc)%forward_inv.
  destruct (forward_batch_objects _ _ _ _ _ _ _ _ _ Hb)
    as (Htmp & Hout & Hot & Hin & Ho).
  destruct (forward_actor_inv _ _ _ _ _ _ _ _ Ha)
    as (td & lw & td' & Htd & Hw & Hsc & Hsr & Hpi).
  exists tmp, r, c, h1, td, lw, dist, td'. repeat split; [done..|].
  specialize (Hpi ltac:(done)).
  rewrite (surjective_pairing (_clip_bounds (super self))) in Hpi.
  rewrite actor_loss_refines in Hpi. rewrite <- Hpi.
  assert (is_Some (h2 !! out)) as H2.
  { by destruct (forward_actor_keeps self tmp out r c out [] Hot
                   ltac:(by right) _ _ _ Ha Ho). }
  destruct (forward_entropy_keeps self out dist out ["loss_pi"]
              ltac:(by right) _ _ _ He H2) as [H3 E3].
  destruct (forward_critics_keeps self tmp out out ["loss_pi"]
              Hot ltac:(by right) _ _ _ Hc H3) as [H4 E4].
  by rewrite E4, E3.
Qed.

(** ** The claims about [forward] *)

Lemma example_actor_loss (lam lo hi : R) :
  lo <= 0 <= hi →
  Spec.actor_loss lam lo hi [0; 0; 0; 0] [1; -1; 2; -2] [0; 0; 0; 0] = 0.
Proof.
  intros [Hlo Hhi]. unfold Spec.actor_loss, mean_list. simpl.
  assert (clamp lo hi 0 = 0) as ->.
  { unfold clamp. rewrite Rmax_left by done. by apply Rmin_left. }
  rewrite exp_0, !Rmin_left by lra.
  unfold Rdiv. lra.
Qed.

(** C1: on advantages (as they are after the optional normalization) and a
    log-weight of identical shape the actor stage succeeds and the
    ["loss_pi"] it writes is the mean of
    [-reward_surrogate_gain + λ * cost_gain] divided by [1 + λ], with the
    minimum of the unclipped and the clipped gain as surrogate, the unclipped
    cost gain, and [λ] the current multiplier; a successful [forward] returns
    that value as ["loss_pi"]; and for reward advantage [[1, -1, 2, -2]],
    cost advantage and log-weight zero the formula gives 0 (for [λ = 0] as
    for every other [λ]). *)
Theorem actor_loss_emitted :
  (∀ self tmp_td td_out r c h1 td log_weight dist td',
     h1 !! tmp_td = Some td → is_Some (h1 !! td_out) → tmp_td ≠ td_out →
     _log_weight (super self) td = Ok ((log_weight, dist), td') →
     shape c = shape log_weight → shape r = shape log_weight →
     ∃ h2, forward_actor self tmp_td td_out r c h1 = Ok (dist, h2)
           ∧ entry h2 td_out ["loss_pi"]
             = Some (scalar (Spec.actor_loss (lagrangian self)
                               (_clip_bounds (super self)).1
                               (_clip_bounds (super self)).2
                               (data log_weight) (data r) (data c))))
  ∧ (∀ self tdict train h out h',
       forward distance_loss self tdict train h = Ok (out, h') →
       ∃ tmp_td r c h1 td log_weight dist td',
         forward_batch self tdict train h = Ok ((tmp_td, out, r, c), h1)
         ∧ h1 !! tmp_td = Some td
         ∧ _log_weight (super self) td = Ok ((log_weight, dist), td')
         ∧ shape c = shape log_weight ∧ shape r = shape log_weight
         ∧ entry h' out ["loss_pi"]
           = Some (scalar (Spec.actor_loss (lagrangian self)
                             (_clip_bounds (super self)).1
                             (_clip_bounds (super self)).2
                             (data log_weight) (data r) (data c))))
  ∧ (∀ lam lo hi, lo <= 0 <= hi →
       Spec.actor_loss lam lo hi [0; 0; 0; 0] [1; -1; 2; -2] [0; 0; 0; 0] = 0)
  ∧ Spec.actor_loss 0 (ln (1 - 0.2)) (ln (1 + 0.2))
      [0; 0; 0; 0] [1; -1; 2; -2] [0; 0; 0; 0] = 0.
Proof.
  split; [|split; [|split]].
  - intros self tmp_td td_out r c h1 td lw dist td' Htd Ho Hne Hw Hc Hr.
    destruct (forward_actor_run self tmp_td td_out r c h1 td lw dist td'
                Htd Ho Hne Hw Hc Hr) as (h2 & Hrun & Hpi).
    exists h2. split; [done|]. rewrite Hpi.
    rewrite (surjective_pairing (_clip_bounds (super self))) at 1.
    by rewrite actor_loss_refines.
  - intros self tdict train h out h' Hrun. by apply forward_loss_pi.
  - intros lam lo hi Hb. by apply example_actor_loss.
  - apply example_actor_loss. split.
    + rewrite <- ln_1. left. apply ln_increasing; lra.
    + rewrite <- ln_1 at 1. left. apply ln_increasing; lra.
Qed.

(** C2 (as the code has it): [NaiveLagrange.forward] returns
    [-proj(raw) * avg_violation * cost_scale] for every element of
    ['avg_violation']; [PPOLagLoss.forward], asked to train the multiplier,
    emits ["loss_lagrangian"] [= -softplus(raw) * mean(avg_violation)], with
    no scale factor (that is, the formula at [cost_scale = 1]); not asked, it
    emits no ["loss_lagrangian"]. *)
Theorem lagrange_loss_emitted :
  (∀ (nl : NaiveLagrange.t) (td : TensorDict) cost_scale av,
     td !! ["avg_violation"] = Some av →
     NaiveLagrange.forward nl td cost_scale
     = Ok (tensor_map
             (λ v, Spec.lagrange_loss (NaiveLagrange.lag nl) v cost_scale) av))
  ∧ (∀ self tdict h out h',
       forward distance_loss self tdict true h = Ok (out, h') →
       ∃ av, entry h tdict ["avg_violation"] = Some av
             ∧ entry h' out ["loss_lagrangian"]
               = Some (scalar (Spec.lagrange_loss (lag self) (mean av) 1)))
  ∧ (∀ self tdict h out h',
       forward distance_loss self tdict false h = Ok (out, h') →
       entry h' out ["loss_lagrangian"] = None).
Proof.
  split; [|split].
  - intros nl td cs av Hav. unfold NaiveLagrange.forward, td_lookup.
    by rewrite Hav.
  - intros self tdict h out h' Hrun.
    destruct (forward_loss_lagrangian _ _ _ _ _ _ Hrun) as (av & Hav & Hl).
    exists av. split; [done|]. rewrite Hl. do 2 f_equal.
    unfold Spec.lagrange_loss. lra.
  - intros self tdict h out h' Hrun.
    exact (forward_loss_lagrangian _ _ _ _ _ _ Hrun).
Qed.

(** C8: when the cost advantage, the reward advantage and the log-weight
    reached by a call do not all have the same shape, [forward] raises the
    assertion error and returns no output mapping. *)
Theorem shape_mismatch_fails self tdict train h tmp_td td_out r c h1 td
    log_weight dist td' :
  forward_batch self tdict train h = Ok ((tmp_td, td_out, r, c), h1) →
  h1 !! tmp_td = Some td →
  _log_weight (super self) td = Ok ((log_weight, dist), td') →
  ¬ (shape c = shape log_weight ∧ shape r = shape log_weight) →
  forward distance_loss self tdict train h = Err AssertionError.
Proof.
  intros Hb Htd Hw Hne. unfold forward.
  rewrite (bind_run _ _ _ _ _ Hb). lazy beta iota.
  apply bind_fail. unfold forward_actor.
  rewrite (bind_run _ _ _ (log_weight, dist) (<[tmp_td := td']> h1)).
  2:{ unfold td_call_with. by rewrite Htd, Hw. }
  assert (shape_eqb (shape c) (shape log_weight)
          && shape_eqb (shape r) (shape log_weight) = false) as Hs.
  { apply andb_false_iff. unfold shape_eqb.
    destruct (decide (shape c = shape log_weight)) as [Hc|Hc].
    - right. apply bool_decide_eq_false_2. tauto.
    - left. by apply bool_decide_eq_false_2. }
  apply bind_fail. by rewrite Hs.
Qed.

(** C10: a successful call leaves the caller's batch as it was: the object
    holds the same entries, among them the two-channel [('next', 'reward')]
    tensor, and the output mapping is another object. *)
Theorem caller_batch_unchanged self tdict train h out h' :
  forward distance_loss self tdict train h = Ok (out, h') →
  out ≠ tdict
  ∧ h' !! tdict = h !! tdict
  ∧ entry h' tdict ["next"; "reward"] = entry h tdict ["next"; "reward"].
Proof.
  intros Hrun. destruct (forward_frame _ _ _ _ _ _ Hrun) as [Hne Heq].
  repeat split; [done..|]. unfold entry. by rewrite Heq.
Qed.

End Runs.

(** ** The claims at concrete inputs *)

Lemma mean_singleton (x : R) : mean (mkTensor [1%nat] [x]) = x.
Proof. unfold mean, mean_list. simpl. field. Qed.

Lemma example_clip_bounds :
  (_clip_bounds (super Example.self)).1 <= 0
  <= (_clip_bounds (super Example.self)).2.
Proof.
  simpl. split.
  - rewrite <- ln_1. left. apply ln_increasing; lra.
  - rewrite <- ln_1 at 1. left. apply ln_increasing; lra.
Qed.

(** The run of the example: rewards [[1, -1, 2, -2]], cost and log-weight
    zero; the actor loss that comes out is 0. *)
Lemma actor_loss_emitted_witness :
  ∃ out h',
    forward Example.l2 Example.self 0%nat false Example.h0 = Ok (out, h')
    ∧ entry h' out ["loss_pi"] = Some (scalar 0).
Proof.
  eexists _, _. split; [reflexivity|].
  destruct (proj1 (proj2 (@actor_loss_emitted unit unit Example.l2))
              Example.self 0%nat false Example.h0 _ _ eq_refl)
    as (tmp & r & c & h1 & td & lw & dist & td' & Hb & Htd & Hw & _ & _ & Hpi).
  assert (∃ h, forward_batch Example.self 0%nat false Example.h0
               = Ok ((1%nat, 2%nat, mkTensor [4; 1]%nat [1; -1; 2; -2],
                      mkTensor [4; 1]%nat [0; 0; 0; 0]), h)) as [hx Hx].
  { eexists. reflexivity. }
  rewrite Hx in Hb. injection Hb as <- <- <- <-.
  injection Hw as <- _ _.
  rewrite Hpi. do 2 f_equal.
  apply (proj1 (proj2 (proj2 (@actor_loss_emitted unit unit Example.l2)))).
  apply example_clip_bounds.
Defined.

(** With the multiplier trained, the example run emits
    [-softplus(raw) * 1] for the mean violation 1. *)
Lemma lagrange_loss_emitted_witness :
  ∃ out h',
    forward Example.l2 Example.self 0%nat true Example.h0 = Ok (out, h')
    ∧ entry h' out ["loss_lagrangian"]
      = Some (scalar (Spec.lagrange_loss (lag Example.self) 1 1)).
Proof.
  eexists _, _. split; [reflexivity|].
  destruct (proj1 (proj2 (@lagrange_loss_emitted unit unit Example.l2))
              Example.self 0%nat Example.h0 _ _ eq_refl)
    as (av & Hav & Hl).
  assert (entry Example.h0 0%nat ["avg_violation"]
          = Some (mkTensor [1%nat] [1])) as Hav' by reflexivity.
  rewrite Hav' in Hav. injection Hav as <-.
  by rewrite Hl, mean_singleton.
Defined.

(** C2 fails as stated: no scale factor enters the loss that
    [PPOLagLoss.forward] emits; for a scale of 2 the emitted value is not
    [-softplus(raw) * avg_violation * 2]. *)
Lemma lagrange_loss_not_scaled :
  ∃ out h',
    forward Example.l2 Example.self 0%nat true Example.h0 = Ok (out, h')
    ∧ entry h' out ["loss_lagrangian"]
      ≠ Some (scalar (Spec.lagrange_loss (lag Example.self) 1 2)).
Proof.
  eexists _, _. split; [reflexivity|].
  pose proof (forward_loss_lagrangian Example.l2 Example.self 0%nat true
                Example.h0 _ _ eq_refl) as (av & Hav & Hl).
  assert (entry Example.h0 0%nat ["avg_violation"]
          = Some (mkTensor [1%nat] [1])) as Hav' by reflexivity.
  rewrite Hav' in Hav. injection Hav as <-.
  rewrite Hl, mean_singleton. intros [= Heq].
  unfold Spec.lagrange_loss in Heq.
  pose proof (softplus_pos (inv_softplus 1)). lra.
Qed.

(** A step with learning rate 1 from [raw = 0] under a violation of 1. *)
Lemma dual_ascent_monotone_witness :
  NaiveLagrange.get (NaiveLagrange.mk 0 25)
  <= NaiveLagrange.get
       (NaiveLagrange.mk
          (Spec.gradient_step 1 0 (- softplus_grad 0 * (1 * 1))) 25).
Proof.
  apply (dual_ascent_monotone 1 1 1 (- softplus_grad 0 * (1 * 1))
           (NaiveLagrange.mk 0 25)
           (NaiveLagrange.mk
              (Spec.gradient_step 1 0 (- softplus_grad 0 * (1 * 1))) 25)).
  - lra.
  - lra.
  - apply lagrangian_loss_derivative.
  - reflexivity.
  - lra.
Defined.

(** A raw parameter of -104 is finite and the multiplier is 0. *)
Lemma multiplier_underflows : multiplier32 (F32.Fin (-104)) = F32.Fin 0.
Proof. apply softplus32_underflow, exp_m104_le. Qed.

(** A raw parameter of 0: the multiplier is positive. *)
Lemma multiplier_positive_above_underflow_witness :
  ∃ m, multiplier32 (F32.Fin 0) = F32.Fin m ∧ 0 < m.
Proof.
  destruct (multiplier_positive_above_underflow 0)
    as (m & Hm & _ & _ & _ & Hpos & _).
  exists m. split; [exact Hm|]. apply Hpos. lra.
Defined.

(** Constructed with the default initial value 1, the multiplier is 1
    within [1e-5]. *)
Lemma initial_multiplier_cases_witness :
  ∃ m, multiplier32 (initial_lag32 1) = F32.Fin m
       ∧ Rabs (m - 1) <= 1e-5 * 1.
Proof.
  apply (proj1 (proj2 (initial_multiplier_cases 1))).
  apply (proj2 (proj2 (proj2 (initial_multiplier_cases 1)))). lra.
Defined.

(** Configured with 1e-9 the multiplier starts above 900 times that value,
    and configured with 100 it starts infinite. *)
Lemma initial_multiplier_not_initial_value :
  (∃ m, multiplier32 (initial_lag32 1e-9) = F32.Fin m ∧ 900 * 1e-9 < m)
  ∧ multiplier32 (initial_lag32 100) = F32.PInf.
Proof.
  split.
  - exists (ln (1 + 1e-6)). split.
    + rewrite initial_lag32_clamped.
      * apply multiplier32_clamped.
      * apply (proj1 (initial_value_cases 1e-9)). lra.
    + pose proof (ln_ge_1_minus_inv (1 + 1e-6) ltac:(lra)) as H.
      assert (/ (1 + 1e-6) <= 1 - 9.9e-7); [|lra].
      rewrite <- (Rinv_inv (1 - 9.9e-7)). apply Rinv_le_contravar.
      * apply Rinv_0_lt_compat. lra.
      * apply Rmult_le_reg_r with (1 - 9.9e-7); [lra|].
        rewrite Rinv_l by lra. lra.
  - rewrite initial_lag32_overflow; [done|].
    apply (proj2 (proj2 (initial_value_cases 100))). lra.
Qed.


(** Bounds [(-1, 1)], log-weight 0 and advantage 1. *)
Lemma clipped_gain_above_lower_bound_witness :
  exp (clamp (-1) 1 0) * 1 <= exp 0 * 1.
Proof.
  destruct (clipped_gain_above_lower_bound (-1) 1 0 1) as (_ & _ & Hclip).
  apply (Hclip ltac:(lra)). lra.
Defined.

(** Log-weight of shape [(4,)], cost advantage of shape [(3,)]: the call
    raises. *)
Lemma shape_mismatch_fails_witness :
  forward Example.l2 Example.mismatched_self 0%nat false Example.h0
  = Err AssertionError.
Proof.
  eapply (shape_mismatch_fails Example.l2 Example.mismatched_self 0%nat false
            Example.h0 1%nat 2%nat (mkTensor [4%nat] [1; -1; 2; -2])
            (mkTensor [3%nat] [0; 0; 0]) _ _
            (mkTensor [4%nat] [0; 0; 0; 0]) tt).
  - reflexivity.
  - reflexivity.
  - reflexivity.
  - simpl. intros [Hc _]. discriminate Hc.
Defined.

(** The example run: the cost estimator is called on [td1], the batch that
    the reward estimator has returned. *)
Lemma estimators_share_scratch_witness :
  ∃ (h1 : heap) (td1 td2 : TensorDict),
    Example.estimator ["r_advantage"] ["r_value_target"] tt tt
      (<[ ["next"; "reward"] := mkTensor [4; 1]%nat [1; -1; 2; -2] ]>
         Example.batch) = Ok td1
    ∧ Example.estimator ["c_advantage"] ["c_value_target"] tt tt
        (<[ ["next"; "reward"] := mkTensor [4; 1]%nat [0; 0; 0; 0] ]> td1)
      = Ok td2
    ∧ h1 !! 1%nat = Some td2
    ∧ h1 !! 0%nat = Some Example.batch.
Proof.
  assert (∃ h1, forward_batch Example.self 0%nat false Example.h0
                = Ok ((1%nat, 2%nat, mkTensor [4; 1]%nat [1; -1; 2; -2],
                       mkTensor [4; 1]%nat [0; 0; 0; 0]), h1)) as [h1 Hb].
  { eexists. reflexivity. }
  exists h1.
  exact (estimators_share_scratch Example.self 0%nat false Example.h0
           1%nat 2%nat _ _ h1 Example.batch 4%nat
           [1; 0; -1; 0; 2; 0; -2; 0] Hb eq_refl eq_refl eq_refl).
Defined.

(** C9 fails as stated: the cost estimator is handed the batch the reward
    estimator has written into, not a copy of the caller's batch of its own.
    With a cost estimator that looks for the reward advantage in its batch,
    the cost advantage of the call differs from the one computed on
    independent copies. *)
Lemma estimators_not_independent :
  ∃ tmp_td td_out r c h1 td_r td_c td_swapped,
    forward_batch Example.peeking_self 0%nat false Example.h0
    = Ok ((tmp_td, td_out, r, c), h1)
    ∧ Spec.independent_estimators Example.peeking_self Example.batch
      = Ok (td_r, td_c)
    ∧ td_c !! ["c_advantage"] ≠ Some c
    ∧ Spec.cost_first_estimators Example.peeking_self Example.batch
      = Ok td_swapped
    ∧ td_swapped !! ["c_advantage"] ≠ Some c.
Proof.
  exists 1%nat, 2%nat, (mkTensor [4; 1]%nat [1; -1; 2; -2]),
    (mkTensor [4; 1]%nat [1 + 0; 1 + 0; 1 + 0; 1 + 0]).
  eexists _, _, _, _. split; [reflexivity|]. split; [reflexivity|].
  split; [|split; [reflexivity|]].
  - assert (∀ (td : TensorDict) (t u : Tensor),
              (<[ ["c_value_target"] := u ]> (<[ ["c_advantage"] := t ]> td))
                !! ["c_advantage"] = Some t) as Hlk.
    { intros td t u. rewrite lookup_insert_ne by done.
      apply lookup_insert_eq. }
    rewrite Hlk. intros Heq. vm_compute in Heq. injection Heq as Heq _. lra.
  - rewrite !lookup_insert_ne by done. rewrite lookup_insert_eq.
    intros Heq. vm_compute in Heq. injection Heq as Heq _. lra.
Qed.

(** After the example run object 0 is the batch it was. *)
Lemma caller_batch_unchanged_witness :
  ∃ out h',
    forward Example.l2 Example.self 0%nat true Example.h0 = Ok (out, h')
    ∧ out ≠ 0%nat
    ∧ h' !! 0%nat = Example.h0 !! 0%nat
    ∧ entry h' 0%nat ["next"; "reward"]
      = entry Example.h0 0%nat ["next"; "reward"].
Proof.
  eexists _, _. split; [reflexivity|].
  exact (caller_batch_unchanged Example.l2 Example.self 0%nat true Example.h0
           _ _ eq_refl).
Defined.

(** * Further properties of the code *)

(** ** The multiplier and its construction *)

Lemma inv_softplus_floor (v : R) : ln 1e-6 <= inv_softplus v.
Proof.
  unfold inv_softplus.
  destruct (Rmax_r (exp v - 1) 1e-6) as [Hlt|Heq].
  - left. apply ln_increasing; [lra|done].
  - right. by rewrite <- Heq.
Qed.

(** X1: whatever the configured initial value, the multiplier of a newly
    constructed module is at least [log(1 + 1e-6)]; it is exactly that
    value whenever [exp(initial_value) - 1 <= 1e-6], in particular for an
    initial value of 0 or below.  The same holds for [PPOLagLoss]. *)
Theorem initial_multiplier_floor (initial_value : R) :
  (∀ cost_limit,
     let m := NaiveLagrange.get (NaiveLagrange.init initial_value cost_limit) in
     ln (1 + 1e-6) <= m
     ∧ (exp initial_value - 1 <= 1e-6 → m = ln (1 + 1e-6)))
  ∧ (∀ (Params Dist : Type) super_init safe_critic r_est c_est
       ka kc kt kct kv kcv,
     let m := lagrangian
       (@init Params Dist super_init safe_critic r_est c_est initial_value
          ka kc kt kct kv kcv) in
     ln (1 + 1e-6) <= m
     ∧ (exp initial_value - 1 <= 1e-6 → m = ln (1 + 1e-6))).
Proof.
  assert (ln (1 + 1e-6) <= softplus (inv_softplus initial_value)
          ∧ (exp initial_value - 1 <= 1e-6 →
             softplus (inv_softplus initial_value) = ln (1 + 1e-6))) as Hm.
  { split.
    - rewrite <- (softplus_ln 1e-6) by lra.
      apply softplus_le, inv_softplus_floor.
    - intros Hv. unfold inv_softplus. rewrite Rmax_right by done.
      apply softplus_ln. lra. }
  split; intros; subst m; exact Hm.
Qed.

(** Constructed with initial value 0, the multiplier is [log(1 + 1e-6)]. *)
Lemma initial_multiplier_floor_witness :
  NaiveLagrange.get (NaiveLagrange.init 0 25) = ln (1 + 1e-6).
Proof.
  apply (initial_multiplier_floor 0). rewrite exp_0. lra.
Defined.

(** X3: constructed with an initial value for which
    [exp(initial_value) - 1] is at least the clamp [1e-6] of [inv_softplus]
    and does not overflow float32, the module logs that value: [get_logs]
    holds the one entry ['lagrangian'], a one-element tensor with the
    configured initial value, from which the float32 multiplier differs by
    no more than the relative tolerance [1e-5]. *)
Theorem get_logs_after_init (initial_value cost_limit : R) :
  1e-6 <= exp initial_value - 1 < F32.huge →
  NaiveLagrange.get_logs (NaiveLagrange.init initial_value cost_limit)
  = {[ ["lagrangian"] := mkTensor [1%nat] [initial_value] ]}
  ∧ ∃ m, multiplier32 (initial_lag32 initial_value) = F32.Fin m
         ∧ Rabs (m - initial_value) <= 1e-5 * initial_value.
Proof.
  intros Hv. split.
  - unfold NaiveLagrange.get_logs, NaiveLagrange.get, NaiveLagrange.proj.
    simpl. rewrite softplus_inv_softplus_exact; [done|lra].
  - rewrite initial_lag32_in_range by done.
    destruct (multiplier32_in_range initial_value Hv) as (Hpos & m & Hm & Hd).
    exists m. split; [done|]. lra.
Qed.

Lemma get_logs_after_init_witness :
  NaiveLagrange.get_logs (NaiveLagrange.init 1 25)
  = {[ ["lagrangian"] := mkTensor [1%nat] [1] ]}.
Proof.
  apply (get_logs_after_init 1 25).
  apply (proj1 (proj2 (initial_value_cases 1))). lra.
Defined.

(** X4: [NaiveLagrange.forward] raises [KeyError] when the batch has no
    ['avg_violation']; otherwise it returns a loss of the shape of
    ['avg_violation'] no element of which, for a positive [cost_scale], has
    the sign of the violation: it is at most zero where the violation is
    positive, at least zero where it is negative, and zero where it is
    zero. *)
Theorem naive_forward_cases (nl : NaiveLagrange.t) (td : TensorDict)
    (cost_scale : R) :
  (td !! ["avg_violation"] = None →
   NaiveLagrange.forward nl td cost_scale = Err (KeyError ["avg_violation"]))
  ∧ (∀ av, td !! ["avg_violation"] = Some av →
     ∃ loss, NaiveLagrange.forward nl td cost_scale = Ok loss
       ∧ shape loss = shape av
       ∧ numel loss = numel av
       ∧ (0 < cost_scale →
          Forall2 (λ v l, (0 < v → l <= 0) ∧ (v < 0 → 0 <= l) ∧ (v = 0 → l = 0))
            (data av) (data loss))).
Proof.
  unfold NaiveLagrange.forward, td_lookup. split.
  - by intros ->.
  - intros av ->. eexists. split; [done|]. split; [done|].
    split; [unfold numel; simpl; by rewrite length_map|].
    intros Hcs. simpl. apply Forall2_fmap_r, Forall_Forall2_diag.
    apply Forall_forall. intros v _.
    unfold NaiveLagrange.lagrangian_loss, NaiveLagrange.proj.
    pose proof (softplus_pos (NaiveLagrange.lag nl)) as Hs.
    assert (0 <= softplus (NaiveLagrange.lag nl) * cost_scale) as Hk
      by (apply Rmult_le_pos; lra).
    repeat split; intros Hv; [nra|nra|subst v; lra].
Qed.

Lemma naive_forward_cases_witness :
  NaiveLagrange.forward (NaiveLagrange.init 1 25)
    (delete ["avg_violation"] Example.batch) 1
  = Err (KeyError ["avg_violation"]).
Proof.
  apply naive_forward_cases. reflexivity.
Defined.

(** ** The actor loss as a function of its inputs *)

Lemma clamp_le_hi (lo hi x : R) : clamp lo hi x <= hi.
Proof. unfold clamp. apply Rmin_r. Qed.

Lemma clamp_ge_lo (lo hi x : R) : lo <= hi → lo <= clamp lo hi x.
Proof.
  intros Hlh. unfold clamp. apply Rmin_glb; [apply Rmax_r|done].
Qed.

(** X7: the reward surrogate gain saturates.  With a clip epsilon in
    [(0, 1)], an element's gain is at most [(1 + epsilon) * advantage] when
    the advantage is non-negative and at most [(1 - epsilon) * advantage]
    when it is negative, however large or small the importance ratio. *)
Theorem surrogate_gain_capped {Params Dist : Type}
    (self : @ClipPPOLoss Params Dist) (log_weight adv : R) :
  0 < clip_epsilon self < 1 →
  let gain := Rmin (exp log_weight * adv)
                (exp (clamp (_clip_bounds self).1 (_clip_bounds self).2
                        log_weight) * adv) in
  (0 <= adv → gain <= (1 + clip_epsilon self) * adv)
  ∧ (adv < 0 → gain <= (1 - clip_epsilon self) * adv).
Proof.
  intros [He0 He1] gain. subst gain. simpl.
  set (lo := ln (1 + - clip_epsilon self)).
  set (hi := ln (1 + clip_epsilon self)).
  assert (exp lo = 1 - clip_epsilon self) as Hlo.
  { unfold lo. rewrite exp_ln by lra. lra. }
  assert (exp hi = 1 + clip_epsilon self) as Hhi.
  { unfold hi. by rewrite exp_ln by lra. }
  assert (lo <= hi) as Hlh.
  { left. apply ln_increasing; lra. }
  pose proof (exp_le _ _ (clamp_le_hi lo hi log_weight)) as Hup.
  pose proof (exp_le _ _ (clamp_ge_lo lo hi log_weight Hlh)) as Hdown.
  rewrite Hhi in Hup. rewrite Hlo in Hdown.
  split; intros Hadv.
  - eapply Rle_trans; [apply Rmin_r|]. nra.
  - eapply Rle_trans; [apply Rmin_r|]. nra.
Qed.

(** With epsilon 0.2, a ratio of [exp(5)] and advantage 1 the gain is at
    most 1.2. *)
Lemma surrogate_gain_capped_witness :
  Rmin (exp 5 * 1)
    (exp (clamp (_clip_bounds (super Example.self)).1
            (_clip_bounds (super Example.self)).2 5) * 1)
  <= (1 + 0.2) * 1.
Proof.
  apply (surrogate_gain_capped (super Example.self) 5 1); simpl; lra.
Defined.

Lemma sum_list_zip_plus (a b : list R) :
  length a = length b →
  sum_list (zip_with Rplus a b) = sum_list a + sum_list b.
Proof.
  revert b. induction a as [|x a IH]; intros [|y b] Hlen;
    simpl in *; try lia; [lra|].
  rewrite IH by lia. lra.
Qed.

Lemma sum_list_map_opp (l : list R) :
  sum_list (map Ropp l) = - sum_list l.
Proof. induction l as [|x l IH]; simpl; [lra|]. rewrite IH. lra. Qed.

Lemma sum_list_map_scale (k : R) (l : list R) :
  sum_list (map (Rmult k) l) = k * sum_list l.
Proof. induction l as [|x l IH]; simpl; [lra|]. rewrite IH. lra. Qed.

Lemma mean_penalized (lam : R) (rg cg : list R) :
  length rg = length cg →
  mean_list (zip_with Rplus (map Ropp rg) (map (Rmult lam) cg))
  = - mean_list rg + lam * mean_list cg.
Proof.
  intros Hlen. unfold mean_list.
  rewrite length_zip_with, !length_map, <- Hlen, Nat.min_id.
  rewrite sum_list_zip_plus by (by rewrite !length_map).
  rewrite sum_list_map_opp, sum_list_map_scale. unfold Rdiv. lra.
Qed.

(** X8: the actor loss is a weighted average of the reward objective and
    the cost objective.  For tensors with equally many elements and a
    multiplier [lam >= 0] it equals
    [(-mean(r_gain) + lam * mean(c_gain)) / (1 + lam)], and therefore lies
    between [-mean(r_gain)] and [mean(c_gain)] however large the multiplier
    is. *)
Theorem actor_loss_between (lam lo hi : R) (log_weight r c : Tensor) :
  0 <= lam →
  length (data r) = length (data log_weight) →
  length (data c) = length (data log_weight) →
  let r_gain :=
    tensor_map2 Rmin
      (tensor_map2 Rmult (tensor_map exp log_weight) r)
      (tensor_map2 Rmult
         (tensor_map exp (tensor_map (clamp lo hi) log_weight)) r) in
  let c_gain := tensor_map2 Rmult (tensor_map exp log_weight) c in
  let loss := actor_loss lam (lo, hi) log_weight r c in
  loss = (- mean r_gain + lam * mean c_gain) / (1 + lam)
  ∧ Rmin (- mean r_gain) (mean c_gain) <= loss
  ∧ loss <= Rmax (- mean r_gain) (mean c_gain).
Proof.
  intros Hlam Hr Hc r_gain c_gain loss.
  assert (loss = (- mean r_gain + lam * mean c_gain) / (1 + lam)) as Hloss.
  { subst loss. unfold actor_loss. f_equal. unfold mean at 1. simpl.
    apply (mean_penalized lam (data r_gain) (data c_gain)).
    subst r_gain c_gain. simpl.
    rewrite !length_zip_with, !length_map. lia. }
  split; [done|]. rewrite Hloss.
  set (A := - mean r_gain). set (B := mean c_gain).
  assert ((A + lam * B) / (1 + lam) * (1 + lam) = A + lam * B) as Hx
    by (field; lra).
  pose proof (Rmin_l A B). pose proof (Rmin_r A B).
  pose proof (Rmax_l A B). pose proof (Rmax_r A B).
  split.
  - apply (Rmult_le_reg_r (1 + lam)); [lra|]. rewrite Hx. nra.
  - apply (Rmult_le_reg_r (1 + lam)); [lra|]. rewrite Hx. nra.
Qed.

Lemma actor_loss_between_witness :
  actor_loss 3 (-1, 1) (mkTensor [2%nat] [0; 1]) (mkTensor [2%nat] [1; 2])
    (mkTensor [2%nat] [4; 5])
  <= Rmax
       (- mean (tensor_map2 Rmin
                  (tensor_map2 Rmult
                     (tensor_map exp (mkTensor [2%nat] [0; 1]))
                     (mkTensor [2%nat] [1; 2]))
                  (tensor_map2 Rmult
                     (tensor_map exp
                        (tensor_map (clamp (-1) 1) (mkTensor [2%nat] [0; 1])))
                     (mkTensor [2%nat] [1; 2]))))
       (mean (tensor_map2 Rmult (tensor_map exp (mkTensor [2%nat] [0; 1]))
                (mkTensor [2%nat] [4; 5]))).
Proof.
  apply (actor_loss_between 3 (-1) 1 (mkTensor [2%nat] [0; 1])
           (mkTensor [2%nat] [1; 2]) (mkTensor [2%nat] [4; 5]));
    [lra|reflexivity|reflexivity].
Defined.

Lemma gains_on_policy (lo hi : R) (lw adv : list R) :
  lo <= 0 <= hi → Forall (λ w, w = 0) lw → length adv = length lw →
  zip_with Rmin (zip_with Rmult (map exp lw) adv)
    (zip_with Rmult (map exp (map (clamp lo hi) lw)) adv) = adv
  ∧ zip_with Rmult (map exp lw) adv = adv.
Proof.
  intros [Hlo Hhi] Hz. revert adv.
  induction Hz as [|w lw -> _ IH]; intros [|a adv] Hlen;
    simpl in *; try lia; [done|].
  destruct (IH adv ltac:(lia)) as [IH1 IH2]. rewrite IH1, IH2.
  assert (clamp lo hi 0 = 0) as ->.
  { unfold clamp. rewrite Rmax_left by done. by apply Rmin_left. }
  rewrite exp_0, Rmult_1_l, Rmin_left by lra. done.
Qed.

(** X9: when the policy has not moved (every log-weight is 0, inside the
    clip bounds) the clipping is idle and the actor loss is
    [(-mean(reward_advantage) + lam * mean(cost_advantage)) / (1 + lam)]. *)
Theorem actor_loss_on_policy (lam lo hi : R) (log_weight r c : Tensor) :
  lo <= 0 <= hi →
  Forall (λ w, w = 0) (data log_weight) →
  length (data r) = length (data log_weight) →
  length (data c) = length (data log_weight) →
  actor_loss lam (lo, hi) log_weight r c
  = (- mean r + lam * mean c) / (1 + lam).
Proof.
  intros Hb Hz Hr Hc. unfold actor_loss, mean. simpl.
  destruct (gains_on_policy lo hi _ _ Hb Hz Hr) as [-> _].
  destruct (gains_on_policy lo hi _ _ Hb Hz Hc) as [_ ->].
  f_equal. apply mean_penalized. lia.
Qed.

Lemma actor_loss_on_policy_witness :
  actor_loss 1 (-1, 1) (mkTensor [2%nat] [0; 0]) (mkTensor [2%nat] [1; 2])
    (mkTensor [2%nat] [4; 5])
  = (- mean (mkTensor [2%nat] [1; 2]) + 1 * mean (mkTensor [2%nat] [4; 5]))
    / (1 + 1).
Proof.
  apply actor_loss_on_policy; [lra|repeat constructor|reflexivity..].
Defined.

(** ** The slices of the reward tensor *)

Lemma rows_slice_length (a b w : nat) (n : nat) (l : list R) :
  length l = (n * w)%nat → (b <= w)%nat →
  length (concat (map (λ row : list R, drop a (take b row)) (rows n w l)))
  = (n * (b - a))%nat.
Proof.
  intros Hlen Hb. revert l Hlen. induction n as [|n IH]; intros l Hlen.
  - done.
  - simpl. rewrite length_app, length_drop, length_take, length_take.
    rewrite IH by (rewrite length_drop; lia). lia.
Qed.

(** X10: slicing keeps tensors well formed and splits the columns as
    [:1] and [1:] say: of a well-formed tensor with [c] columns the first
    slice has [min(1, c)] columns and the second all the remaining [c - 1]
    (every cost column, not just one), and both hold as many elements as
    their shapes say. *)
Theorem slice_dim1_wf (t : Tensor) (n c : nat) (rest : list nat) :
  tensor_wf t → shape t = n :: c :: rest →
  ∃ front back,
    slice_dim1 0 (Some 1%nat) t = Ok front
    ∧ slice_dim1 1 None t = Ok back
    ∧ shape front = n :: (1 `min` c)%nat :: rest
    ∧ shape back = n :: (c - 1)%nat :: rest
    ∧ tensor_wf front ∧ tensor_wf back.
Proof.
  unfold tensor_wf, slice_dim1. intros Hwf Hsh. rewrite Hsh in *.
  cbn [foldr] in Hwf. set (inner := foldr Nat.mul 1%nat rest) in *.
  do 2 eexists. split; [done|]. split; [done|].
  cbn [shape data foldr default]. fold inner.
  rewrite Nat.min_id, Nat.min_0_l, Nat.sub_0_r, Nat.mul_0_l.
  assert ((c - 1 `min` c)%nat = (c - 1)%nat) as -> by lia.
  rewrite !rows_slice_length by (first [done | nia | lia]).
  repeat split; nia.
Qed.

Lemma slice_dim1_wf_witness :
  ∃ front back,
    slice_dim1 0 (Some 1%nat) Example.reward = Ok front
    ∧ slice_dim1 1 None Example.reward = Ok back
    ∧ shape front = [4; 1]%nat
    ∧ shape back = [4; 1]%nat
    ∧ tensor_wf front ∧ tensor_wf back.
Proof.
  exact (slice_dim1_wf Example.reward 4 2 [] eq_refl eq_refl).
Defined.

Lemma interleave_channels (n : nat) (l : list R) :
  length l = (2 * n)%nat →
  interleave (Spec.reward_channel l) (Spec.cost_channel l) = l
  ∧ length (Spec.reward_channel l) = n
  ∧ length (Spec.cost_channel l) = n.
Proof.
  revert l. induction n as [|n IH]; intros l Hlen.
  - destruct l; [done|simpl in Hlen; lia].
  - destruct l as [|r [|c rest]]; [simpl in Hlen; lia..|].
    simpl in Hlen. destruct (IH rest ltac:(lia)) as (Hi & Hr & Hc).
    simpl. by rewrite Hi, Hr, Hc.
Qed.

(** X11: the two slices that [forward] hands to the estimators split a
    two-channel reward tensor without loss: each has one element per
    transition, and interleaving them gives back the reward tensor's
    data. *)
Theorem reward_slices_partition (n : nat) (l : list R) :
  tensor_wf (mkTensor [n; 2%nat] l) →
  ∃ r c,
    slice_dim1 0 (Some 1%nat) (mkTensor [n; 2%nat] l) = Ok r
    ∧ slice_dim1 1 None (mkTensor [n; 2%nat] l) = Ok c
    ∧ numel r = n ∧ numel c = n
    ∧ interleave (data r) (data c) = l.
Proof.
  unfold tensor_wf. simpl. intros Hwf.
  assert (length l = (2 * n)%nat) as Hlen by lia.
  destruct (slice_channels n l Hlen) as [Hr Hc].
  destruct (interleave_channels n l Hlen) as (Hi & Hnr & Hnc).
  eexists _, _. split; [exact Hr|]. split; [exact Hc|].
  unfold numel. simpl. done.
Qed.

Lemma reward_slices_partition_witness :
  ∃ r c,
    slice_dim1 0 (Some 1%nat) Example.reward = Ok r
    ∧ slice_dim1 1 None Example.reward = Ok c
    ∧ numel r = 4%nat ∧ numel c = 4%nat
    ∧ interleave (data r) (data c) = [1; 0; -1; 0; 2; 0; -2; 0].
Proof.
  exact (reward_slices_partition 4 [1; 0; -1; 0; 2; 0; -2; 0] eq_refl).
Defined.

(** ** Runs of [forward], forwards *)

Section StageRuns.

Context {Params Dist : Type}.

Implicit Types (self : @PPOLagLoss Params Dist) (h : heap) (o : oid) (k : key).

(** A computation that keeps every entry of an object keeps the object. *)
Lemma keeps_object {A} (m : M A) o h (a : A) h' :
  (∀ k, keeps o k m) → m h = Ok (a, h') → is_Some (h !! o) →
  h' !! o = h !! o.
Proof.
  intros Hk Hrun Ho. apply object_ext; [done|apply (Hk [] _ _ _ Hrun Ho)|].
  intros k. apply (Hk k _ _ _ Hrun Ho).
Qed.

(** The dual loss branch, completely. *)
Lemma forward_lagrangian_run self tdict td_out train h td tdo :
  tdict ≠ td_out → h !! tdict = Some td → h !! td_out = Some tdo →
  forward_lagrangian self tdict td_out train h
  = if train
    then match td !! ["avg_violation"] with
         | Some av =>
             Ok (tt, <[td_out := <[ ["lagrangian"] := scalar (lagrangian self) ]>
                        (<[ ["loss_lagrangian"] :=
                              scalar (- softplus (lag self) * mean av) ]> tdo)]> h)
         | None => Err (KeyError ["avg_violation"])
         end
    else Ok (tt, <[td_out := <[ ["lagrangian"] := scalar (lagrangian self) ]>
                   tdo]> h).
Proof.
  intros Hne Htd Ho. unfold forward_lagrangian. destruct train.
  - destruct (td !! ["avg_violation"]) as [av|] eqn:Hav.
    + set (v := scalar (- softplus (lag self) * mean av)).
      rewrite (bind_run _ _ _ () (<[td_out := <[ ["loss_lagrangian"] := v ]> tdo]> h)).
      2:{ rewrite (bind_run _ _ _ av h).
          - unfold td_set. by rewrite Ho.
          - unfold td_get, td_lookup. rewrite Htd. simpl. by rewrite Hav. }
      unfold td_set. by rewrite lookup_insert_eq, insert_insert_eq.
    + apply bind_fail, bind_fail.
      unfold td_get, td_lookup. rewrite Htd. simpl. by rewrite Hav.
  - rewrite (bind_run _ _ _ () h) by done.
    unfold td_set. by rewrite Ho.
Qed.

(** [forward_batch] starts by allocating the clone and the output mapping. *)
Lemma forward_batch_start self tdict train h td :
  h !! tdict = Some td →
  let tmp := fresh_oid h in
  let out := fresh_oid (<[tmp := td]> h) in
  tmp ≠ tdict ∧ out ≠ tdict ∧ out ≠ tmp
  ∧ forward_batch self tdict train h
    = (forward_lagrangian self tdict out train;;
       forward_estimators self tdict tmp;;
       '(r_advantage, c_advantage) ← forward_advantages self tmp;
       mret (tmp, out, r_advantage, c_advantage))
        (<[out := ∅]> (<[tmp := td]> h)).
Proof.
  intros Htd tmp out.
  assert (tmp ≠ tdict) as Htmp by (apply fresh_oid_ne; eauto).
  assert (out ≠ tmp) as Hot.
  { apply fresh_oid_ne. rewrite lookup_insert_eq. eauto. }
  assert (out ≠ tdict) as Hout.
  { apply fresh_oid_ne. rewrite lookup_insert_ne by done. eauto. }
  repeat split; [done..|]. unfold forward_batch.
  rewrite (bind_run _ _ _ tmp (<[tmp := td]> h)).
  2:{ unfold td_clone. by rewrite Htd. }
  by rewrite (bind_run _ _ _ out (<[out := ∅]> (<[tmp := td]> h))).
Qed.

(** [forward_batch], completely, on a batch that has the entries the loss
    module itself reads: what remains are the two estimator calls and the
    two advantage entries they are expected to leave. *)
Lemma forward_batch_run self tdict train h td av reward r0 c0 :
  h !! tdict = Some td →
  (train = true → td !! ["avg_violation"] = Some av) →
  td !! ["next"; "reward"] = Some reward →
  slice_dim1 0 (Some 1%nat) reward = Ok r0 →
  slice_dim1 1 None reward = Ok c0 →
  let tmp := fresh_oid h in
  let out := fresh_oid (<[tmp := td]> h) in
  let tdo := <[ ["lagrangian"] := scalar (lagrangian self) ]>
               (if train
                then <[ ["loss_lagrangian"] :=
                          scalar (- softplus (lag self) * mean av) ]> ∅
                else ∅) in
  forward_batch self tdict train h
  = match r_value_estimator self (critic_params (super self))
            (target_critic_params (super self))
            (<[ ["next"; "reward"] := r0 ]> td) with
    | Ok td1 =>
        match c_value_estimator self (safe_critic_params self)
                (target_safe_critic_params self)
                (<[ ["next"; "reward"] := c0 ]> td1) with
        | Ok td2 =>
            match td_lookup td2 (advantage_key (super self)) with
            | Ok ra =>
                match td_lookup td2 (c_advantage_key self) with
                | Ok ca =>
                    let p := normalize_advantages
                               (normalize_advantage (super self)) ra ca in
                    Ok ((tmp, out, p.1, p.2),
                        <[tmp := td2]> (<[out := tdo]> (<[tmp := td]> h)))
                | Err e => Err e
                end
            | Err e => Err e
            end
        | Err e => Err e
        end
    | Err e => Err e
    end.
Proof.
  intros Htd Hav Hrew Hr Hc tmp out tdo.
  destruct (forward_batch_start self tdict train h td Htd)
    as (Htmp & Hout & Hot & ->).
  fold tmp out in Htmp, Hout, Hot |- *.
  set (hb := (<[out := ∅]> (<[tmp := td]> h) : heap)).
  assert (hb !! tdict = Some td) as Hbtd.
  { unfold hb. by rewrite !lookup_insert_ne. }
  set (hl := (<[out := tdo]> (<[tmp := td]> h) : heap)).
  assert (forward_lagrangian self tdict out train hb = Ok (tt, hl)) as Hl.
  { rewrite (forward_lagrangian_run self tdict out train hb td ∅)
      by (first [done | apply lookup_insert_eq]).
    unfold hl, hb, tdo. destruct train.
    - rewrite (Hav eq_refl). by rewrite insert_insert_eq.
    - by rewrite insert_insert_eq. }
  rewrite (bind_run _ _ _ _ _ Hl).
  assert (hl !! tdict = Some td) as Hltd.
  { unfold hl. by rewrite !lookup_insert_ne. }
  assert (hl !! tmp = Some td) as Hltmp.
  { unfold hl. rewrite lookup_insert_ne by done. apply lookup_insert_eq. }
  pose proof (forward_estimators_run self tdict tmp hl td td reward r0 c0
                ltac:(done) Hltd Hltmp Hrew Hr Hc) as He.
  destruct (r_value_estimator self _ _ _) as [td1|e]; [|by apply bind_fail].
  destruct (c_value_estimator self _ _ _) as [td2|e]; [|by apply bind_fail].
  rewrite (bind_run _ _ _ _ _ He).
  unfold forward_advantages, td_lookup.
  destruct (td2 !! advantage_key (super self)) as [ra|] eqn:Hra.
  2:{ apply bind_fail, bind_fail. unfold td_get, td_lookup.
      rewrite lookup_insert_eq. simpl. by rewrite Hra. }
  destruct (td2 !! c_advantage_key self) as [ca|] eqn:Hca.
  2:{ apply bind_fail.
      rewrite (bind_run _ _ _ ra (<[tmp := td2]> hl)).
      - apply bind_fail. unfold td_get, td_lookup.
        rewrite lookup_insert_eq. simpl. by rewrite Hca.
      - unfold td_get, td_lookup. rewrite lookup_insert_eq. simpl.
        by rewrite Hra. }
  set (p := normalize_advantages _ ra ca).
  rewrite (bind_run _ _ _ p (<[tmp := td2]> hl)).
  - by destruct p.
  - rewrite (bind_run _ _ _ ra (<[tmp := td2]> hl)).
    + rewrite (bind_run _ _ _ ca (<[tmp := td2]> hl)); [done|].
      unfold td_get, td_lookup. rewrite lookup_insert_eq. simpl.
      by rewrite Hca.
    + unfold td_get, td_lookup. rewrite lookup_insert_eq. simpl.
      by rewrite Hra.
Qed.

End StageRuns.

Section StageOutputs.

Context {Params Dist : Type}.
Variable distance_loss : Tensor → Tensor → string → result Tensor.

Implicit Types (self : @PPOLagLoss Params Dist) (h : heap) (o : oid) (k : key).

(** The output mapping when [forward_batch] is through. *)
Lemma forward_batch_output self tdict train h tmp_td td_out r c h1 :
  forward_batch self tdict train h = Ok ((tmp_td, td_out, r, c), h1) →
  ∃ L : R,
    h1 !! td_out
    = Some (<[ ["lagrangian"] := scalar (lagrangian self) ]>
              (if train then <[ ["loss_lagrangian"] := scalar L ]> ∅ else ∅)).
Proof.
  intros Hb.
  destruct (forward_batch_objects _ _ _ _ _ _ _ _ _ Hb)
    as (Htmp & Hout & Hot & _ & _).
  apply forward_batch_inv in Hb
    as (td & hl & he & Htd & Etmp & Eout & Hl & He & Ha).
  set (hb := (<[td_out := ∅]> (<[tmp_td := td]> h) : heap)) in *.
  rewrite (forward_lagrangian_run self tdict td_out train hb td ∅) in Hl.
  2:{ congruence. }
  2:{ unfold hb. by rewrite !lookup_insert_ne by congruence. }
  2:{ apply lookup_insert_eq. }
  assert (∃ L : R, hl !! td_out
            = Some (<[ ["lagrangian"] := scalar (lagrangian self) ]>
                      (if train
                       then <[ ["loss_lagrangian"] := scalar L ]> ∅
                       else ∅))) as [L HL].
  { destruct train.
    - destruct (td !! ["avg_violation"]) as [av|]; [|done].
      injection Hl as <-. eexists. apply lookup_insert_eq.
    - injection Hl as <-. exists 0. apply lookup_insert_eq. }
  exists L. rewrite <- HL.
  apply forward_advantages_heap in Ha as ->.
  apply (keeps_object _ _ _ _ _
           (λ k, forward_estimators_keeps self tdict tmp_td td_out k Hot) He).
  rewrite HL. eauto.
Qed.

(** The output mapping after the actor stage. *)
Lemma forward_actor_output self tmp_td td_out r c h1 dist h2 tdo :
  forward_actor self tmp_td td_out r c h1 = Ok (dist, h2) →
  tmp_td ≠ td_out → h1 !! td_out = Some tdo →
  ∃ P : R, h2 !! td_out = Some (<[ ["loss_pi"] := scalar P ]> tdo).
Proof.
  unfold forward_actor. intros Hrun Hne Ho.
  apply bind_ok in Hrun as ([lw d] & ha & Hw & Hrun).
  apply td_call_with_ok in Hw as (td & td' & Htd & Hw & ->).
  apply bind_ok in Hrun as ([] & hb & [Hs ->]%assert_ok & Hrun).
  apply bind_ok in Hrun as ([] & hc & (tdo' & Ho' & ->)%td_set_ok & Hrun).
  apply ret_ok in Hrun as [-> ->].
  rewrite lookup_insert_ne, Ho in Ho' by done. injection Ho' as <-.
  eexists. apply lookup_insert_eq.
Qed.

(** A successful run of the entropy stage. *)
Lemma forward_entropy_inv self td_out dist h2 h3 tdo :
  forward_entropy self td_out dist h2 = Ok (tt, h3) →
  h2 !! td_out = Some tdo →
  ∃ entropy,
    get_entropy_bonus (super self) dist = Ok entropy
    ∧ h3 = <[td_out := <[ ["entropy"] := scalar (mean entropy) ]>
               (if entropy_bonus (super self)
                then <[ ["loss_entropy"] :=
                          scalar (- entropy_coef (super self) * mean entropy) ]>
                       tdo
                else tdo)]> h2.
Proof.
  unfold forward_entropy. intros Hrun Ho.
  apply bind_ok in Hrun as (ent & ha & [Hent ->]%lift_ok & Hrun).
  apply bind_ok in Hrun as ([] & hb & Hb & (tdo' & Ho' & ->)%td_set_ok).
  exists ent. split; [done|]. unfold detach.
  destruct (entropy_bonus (super self)).
  - apply td_set_ok in Hb as (tdo'' & Ho'' & ->).
    rewrite Ho in Ho''. injection Ho'' as <-.
    rewrite lookup_insert_eq in Ho'. injection Ho' as <-.
    by rewrite insert_insert_eq.
  - apply ret_ok in Hb as [_ ->]. rewrite Ho in Ho'. by injection Ho' as <-.
Qed.

(** A successful run of the critic stage. *)
Lemma forward_critics_inv self tmp_td td_out h3 h' tdo :
  forward_critics distance_loss self tmp_td td_out h3 = Ok (tt, h') →
  tmp_td ≠ td_out → h3 !! td_out = Some tdo →
  ∃ td3 target tdr pred dr c_target tdc c_pred dc,
    h3 !! tmp_td = Some td3
    ∧ td3 !! value_target_key (super self) = Some target
    ∧ critic (super self) (critic_params (super self)) td3 = Ok tdr
    ∧ tdr !! value_key (super self) = Some pred
    ∧ distance_loss target pred (loss_critic_type (super self)) = Ok dr
    ∧ tdr !! c_value_target_key self = Some c_target
    ∧ safe_critic self (safe_critic_params self) tdr = Ok tdc
    ∧ tdc !! c_value_key self = Some c_pred
    ∧ distance_loss c_target c_pred (loss_critic_type (super self)) = Ok dc
    ∧ h' = <[td_out :=
               <[ ["loss_c_critic"] :=
                    scalar (mean (tensor_map (Rmult (critic_coef (super self)))
                                    dc)) ]>
                 (<[ ["loss_r_critic"] :=
                       scalar (mean (tensor_map
                                       (Rmult (critic_coef (super self))) dr)) ]>
                    tdo)]> (<[tmp_td := tdc]> h3).
Proof.
  unfold forward_critics. intros Hrun Hne Ho.
  apply bind_ok in Hrun as (target & ha & [-> (td3 & Htd3 & Htar)]%td_get_ok & Hrun).
  apply bind_ok in Hrun as ([] & hb & (td3' & tdr & Htd3' & Hcr & ->)%td_call_ok & Hrun).
  rewrite Htd3 in Htd3'. injection Htd3' as <-.
  apply bind_ok in Hrun as (pred & hc & [-> (tdr' & Htdr & Hpred)]%td_get_ok & Hrun).
  rewrite lookup_insert_eq in Htdr. injection Htdr as <-.
  apply bind_ok in Hrun as (dr & hd & [Hdr ->]%lift_ok & Hrun).
  apply bind_ok in Hrun as (ctar & he & [-> (tdr' & Htdr & Hctar)]%td_get_ok & Hrun).
  rewrite lookup_insert_eq in Htdr. injection Htdr as <-.
  apply bind_ok in Hrun as ([] & hf & (tdr' & tdc & Htdr & Hsc & ->)%td_call_ok & Hrun).
  rewrite lookup_insert_eq in Htdr. injection Htdr as <-.
  rewrite insert_insert_eq in Hrun.
  apply bind_ok in Hrun as (cpred & hg & [-> (tdc' & Htdc & Hcpred)]%td_get_ok & Hrun).
  rewrite lookup_insert_eq in Htdc. injection Htdc as <-.
  apply bind_ok in Hrun as (dc & hi & [Hdc ->]%lift_ok & Hrun).
  apply bind_ok in Hrun as ([] & hj & (tdo' & Ho' & ->)%td_set_ok & Hrun).
  rewrite lookup_insert_ne, Ho in Ho' by done. injection Ho' as <-.
  apply td_set_ok in Hrun as (tdo' & Ho' & ->).
  rewrite lookup_insert_eq in Ho'. injection Ho' as <-.
  exists td3, target, tdr, pred, dr, ctar, tdc, cpred, dc.
  repeat split; try done. by rewrite insert_insert_eq.
Qed.

(** The output mapping of a successful run, whole. *)
Lemma forward_output_object self tdict train h out h' :
  forward distance_loss self tdict train h = Ok (out, h') →
  ∃ L P E Lr Lc : R,
    let batch_part : TensorDict :=
      <[ ["lagrangian"] := scalar (lagrangian self) ]>
        (if train then <[ ["loss_lagrangian"] := scalar L ]> ∅ else ∅) in
    let actor_part : TensorDict := <[ ["loss_pi"] := scalar P ]> batch_part in
    let entropy_part : TensorDict :=
      <[ ["entropy"] := scalar E ]>
        (if entropy_bonus (super self)
         then <[ ["loss_entropy"] :=
                   scalar (- entropy_coef (super self) * E) ]> actor_part
         else actor_part) in
    h' !! out
    = Some (<[ ["loss_c_critic"] := scalar Lc ]>
              (<[ ["loss_r_critic"] := scalar Lr ]> entropy_part)).
Proof.
  intros (tmp & r & c & h1 & dist & h2 & h3 & Hb & Ha & He & Hc)%forward_inv.
  destruct (forward_batch_objects _ _ _ _ _ _ _ _ _ Hb)
    as (Htmp & Hout & Hot & _ & _).
  destruct (forward_batch_output _ _ _ _ _ _ _ _ _ Hb) as [L H1].
  destruct (forward_actor_output _ _ _ _ _ _ _ _ _ Ha ltac:(done) H1)
    as [P H2].
  destruct (forward_entropy_inv _ _ _ _ _ _ He H2) as (ent & _ & ->).
  pose proof (forward_critics_inv _ _ _ _ _ _ Hc ltac:(done)
                ltac:(apply lookup_insert_eq))
    as (? & ? & ? & ? & dr & ? & ? & ? & dc & _ & _ & _ & _ & _ & _ & _ & _ & _ & ->).
  exists L, P, (mean ent). eexists _, _.
  simpl. by rewrite lookup_insert_eq.
Qed.

End StageOutputs.

(** ** What a call returns and what it leaves *)

Section Outputs.

Context {Params Dist : Type}.
Variable distance_loss : Tensor → Tensor → string → result Tensor.

Implicit Types (self : @PPOLagLoss Params Dist) (h : heap) (o : oid) (k : key).

(** X12: the output mapping of a successful call holds exactly the entries
    ["lagrangian"], ["loss_pi"], ["entropy"], ["loss_r_critic"] and
    ["loss_c_critic"], together with ["loss_lagrangian"] when the multiplier
    is trained and ["loss_entropy"] when the entropy bonus is on; and every
    entry is a zero-dimensional tensor. *)
Theorem forward_output_keys self tdict train h out h' :
  forward distance_loss self tdict train h = Ok (out, h') →
  (∀ k, is_Some (entry h' out k)
        ↔ k ∈ ["lagrangian"] :: ["loss_pi"] :: ["entropy"]
              :: ["loss_r_critic"] :: ["loss_c_critic"]
              :: (if train then [["loss_lagrangian"]] else [])
              ++ (if entropy_bonus (super self)
                  then [["loss_entropy"]] else []))
  ∧ (∀ k t, entry h' out k = Some t → shape t = [] ∧ numel t = 1%nat).
Proof.
  intros Hrun.
  destruct (forward_output_object distance_loss _ _ _ _ _ _ Hrun)
    as (L & P & E & Lr & Lc & Hobj).
  simpl in Hobj. unfold entry. rewrite Hobj. simpl. split.
  - intros k. rewrite <- elem_of_dom.
    destruct train, (entropy_bonus (super self)); simpl;
      rewrite !dom_insert_L, dom_empty_L, !elem_of_union, !elem_of_singleton,
        elem_of_empty, !elem_of_cons, elem_of_nil; tauto.
  - intros k t.
    destruct train, (entropy_bonus (super self));
      repeat (rewrite lookup_insert; case_decide; subst);
      rewrite ?lookup_empty; intros [= <-]; done.
Qed.

Lemma mean_scale (k : R) (t : Tensor) :
  mean (tensor_map (Rmult k) t) = k * mean t.
Proof.
  unfold mean, mean_list, tensor_map. simpl.
  rewrite sum_list_map_scale, length_map. unfold Rdiv. lra.
Qed.

(** X13: every successful call, whether or not the multiplier is trained,
    reports the current multiplier [softplus(lag)] as ["lagrangian"], and
    that number is the one that weights the cost gain, and divides, in the
    ["loss_pi"] of the same call. *)
Theorem forward_reports_multiplier self tdict train h out h' :
  forward distance_loss self tdict train h = Ok (out, h') →
  ∃ lam tmp_td r c h1 td log_weight dist td',
    lam = softplus (lag self)
    ∧ entry h' out ["lagrangian"] = Some (scalar lam)
    ∧ forward_batch self tdict train h = Ok ((tmp_td, out, r, c), h1)
    ∧ h1 !! tmp_td = Some td
    ∧ _log_weight (super self) td = Ok ((log_weight, dist), td')
    ∧ entry h' out ["loss_pi"]
      = Some (scalar
                (mean_list
                   (Spec.actor_terms lam (_clip_bounds (super self)).1
                      (_clip_bounds (super self)).2
                      (data log_weight) (data r) (data c))
                 / (1 + lam))).
Proof.
  intros Hrun.
  destruct (forward_loss_pi distance_loss _ _ _ _ _ _ Hrun)
    as (tmp & r & c & h1 & td & lw & dist & td' & Hb & Htd & Hw & _ & _ & Hpi).
  exists (softplus (lag self)), tmp, r, c, h1, td, lw, dist, td'.
  repeat split; [|done..].
  destruct (forward_output_object distance_loss _ _ _ _ _ _ Hrun)
    as (L & P & E & Lr & Lc & Hobj).
  simpl in Hobj. unfold entry. rewrite Hobj. simpl.
  rewrite !lookup_insert_ne by done.
  destruct (entropy_bonus (super self));
    rewrite !lookup_insert_ne by done; apply lookup_insert_eq.
Qed.

(** X14: a successful call reports the mean of the entropy bonus of the
    current action distribution as ["entropy"]; it emits ["loss_entropy"],
    equal to [-entropy_coef * mean(entropy)], exactly when the entropy bonus
    is switched on. *)
Theorem forward_entropy_outputs self tdict train h out h' :
  forward distance_loss self tdict train h = Ok (out, h') →
  ∃ tmp_td r c h1 dist h2 entropy,
    forward_batch self tdict train h = Ok ((tmp_td, out, r, c), h1)
    ∧ forward_actor self tmp_td out r c h1 = Ok (dist, h2)
    ∧ get_entropy_bonus (super self) dist = Ok entropy
    ∧ entry h' out ["entropy"] = Some (scalar (mean entropy))
    ∧ entry h' out ["loss_entropy"]
      = if entropy_bonus (super self)
        then Some (scalar (- entropy_coef (super self) * mean entropy))
        else None.
Proof.
  intros (tmp & r & c & h1 & dist & h2 & h3 & Hb & Ha & He & Hc)%forward_inv.
  destruct (forward_batch_objects _ _ _ _ _ _ _ _ _ Hb)
    as (Htmp & Hout & Hot & _ & _).
  destruct (forward_batch_output _ _ _ _ _ _ _ _ _ Hb) as [L H1].
  destruct (forward_actor_output _ _ _ _ _ _ _ _ _ Ha ltac:(done) H1)
    as [P H2].
  destruct (forward_entropy_inv _ _ _ _ _ _ He H2) as (ent & Hent & ->).
  exists tmp, r, c, h1, dist, h2, ent. repeat split; [done..| |].
  - destruct (forward_critics_keeps distance_loss self tmp out out ["entropy"]
                Hot ltac:(by right) _ _ _ Hc
                ltac:(rewrite lookup_insert_eq; eauto)) as [_ ->].
    unfold entry. rewrite lookup_insert_eq. simpl. apply lookup_insert_eq.
  - destruct (forward_critics_keeps distance_loss self tmp out out
                ["loss_entropy"] Hot ltac:(by right) _ _ _ Hc
                ltac:(rewrite lookup_insert_eq; eauto)) as [_ ->].
    unfold entry. rewrite lookup_insert_eq. simpl.
    rewrite lookup_insert_ne by done.
    destruct (entropy_bonus (super self)); [apply lookup_insert_eq|].
    rewrite !lookup_insert_ne by done. by destruct train.
Qed.

(** X15: the two critic losses of a successful call.  The reward-value
    target is read from the scratch batch, as the actor stage left it,
    before the reward critic is called on that batch, and the prediction is
    what that call leaves under the value key; the cost target is read from
    the batch as the reward critic left it, and the cost critic is called on
    that.  Each loss is [critic_coef] times the mean distance between target
    and prediction. *)
Theorem forward_critic_losses self tdict train h out h' :
  forward distance_loss self tdict train h = Ok (out, h') →
  ∃ tmp_td r c h1 dist h2 td3 target tdr pred dr c_target tdc c_pred dc,
    forward_batch self tdict train h = Ok ((tmp_td, out, r, c), h1)
    ∧ forward_actor self tmp_td out r c h1 = Ok (dist, h2)
    ∧ h2 !! tmp_td = Some td3
    ∧ td3 !! value_target_key (super self) = Some target
    ∧ critic (super self) (critic_params (super self)) td3 = Ok tdr
    ∧ tdr !! value_key (super self) = Some pred
    ∧ distance_loss target pred (loss_critic_type (super self)) = Ok dr
    ∧ tdr !! c_value_target_key self = Some c_target
    ∧ safe_critic self (safe_critic_params self) tdr = Ok tdc
    ∧ tdc !! c_value_key self = Some c_pred
    ∧ distance_loss c_target c_pred (loss_critic_type (super self)) = Ok dc
    ∧ h' !! tmp_td = Some tdc
    ∧ entry h' out ["loss_r_critic"]
      = Some (scalar (critic_coef (super self) * mean dr))
    ∧ entry h' out ["loss_c_critic"]
      = Some (scalar (critic_coef (super self) * mean dc)).
Proof.
  intros (tmp & r & c & h1 & dist & h2 & h3 & Hb & Ha & He & Hc)%forward_inv.
  destruct (forward_batch_objects _ _ _ _ _ _ _ _ _ Hb)
    as (Htmp & Hout & Hot & _ & _).
  destruct (forward_batch_output _ _ _ _ _ _ _ _ _ Hb) as [L H1].
  destruct (forward_actor_output _ _ _ _ _ _ _ _ _ Ha ltac:(done) H1)
    as [P H2].
  destruct (forward_entropy_inv _ _ _ _ _ _ He H2) as (ent & Hent & ->).
  destruct (forward_critics_inv distance_loss _ _ _ _ _ _ Hc ltac:(done)
              ltac:(apply lookup_insert_eq))
    as (td3 & target & tdr & pred & dr & ctar & tdc & cpred & dc
        & Htd3 & Ht & Hcr & Hp & Hdr & Hct & Hsc & Hcp & Hdc & ->).
  rewrite lookup_insert_ne in Htd3 by done.
  exists tmp, r, c, h1, dist, h2, td3, target, tdr, pred, dr, ctar, tdc,
    cpred, dc.
  repeat split; [done..| | |].
  - rewrite lookup_insert_ne by done. apply lookup_insert_eq.
  - unfold entry. rewrite lookup_insert_eq. simpl.
    rewrite lookup_insert_ne by done.
    by rewrite lookup_insert_eq, mean_scale.
  - unfold entry. rewrite lookup_insert_eq. simpl.
    by rewrite lookup_insert_eq, mean_scale.
Qed.

(** X16: a successful call writes into no object that existed before it:
    every TensorDict of the heap, not only the caller's batch, is as it was,
    and the output mapping it returns is a new object. *)
Theorem forward_writes_new_objects_only self tdict train h out h' :
  forward distance_loss self tdict train h = Ok (out, h') →
  h !! out = None ∧ ∀ o, is_Some (h !! o) → h' !! o = h !! o.
Proof.
  intros (tmp & r & c & h1 & dist & h2 & h3 & Hb & Ha & He & Hc)%forward_inv.
  destruct (forward_batch_objects _ _ _ _ _ _ _ _ _ Hb)
    as (_ & _ & Hot & _ & _).
  apply forward_batch_inv in Hb
    as (td & hl & he & Htd & -> & -> & Hl & Hes & Hav).
  set (tmp := fresh_oid h) in *.
  set (out := fresh_oid (<[tmp := td]> h)) in *.
  split.
  - pose proof (fresh_oid_fresh (<[tmp := td]> h)) as Hf. fold out in Hf.
    by rewrite lookup_insert_ne in Hf.
  - intros o Ho.
    assert (o ≠ tmp) as Hotmp by (intros ->; by apply (fresh_oid_ne h tmp)).
    assert (o ≠ out) as Hoout.
    { intros ->. apply (fresh_oid_ne (<[tmp := td]> h) out); [|done].
      by rewrite lookup_insert_ne. }
    set (hb := (<[out := ∅]> (<[tmp := td]> h) : heap)) in *.
    assert (hb !! o = h !! o) as E0.
    { unfold hb. by rewrite !lookup_insert_ne. }
    assert (hl !! o = hb !! o) as E1.
    { apply (keeps_object _ _ _ _ _
               (λ k, forward_lagrangian_keeps self tdict out train o k
                       (or_introl Hoout)) Hl). by rewrite E0. }
    assert (he !! o = hl !! o) as E2.
    { apply (keeps_object _ _ _ _ _
               (λ k, forward_estimators_keeps self tdict tmp o k Hotmp) Hes).
      by rewrite E1, E0. }
    apply forward_advantages_heap in Hav as ->.
    assert (h2 !! o = he !! o) as E3.
    { apply (keeps_object _ _ _ _ _
               (λ k, forward_actor_keeps self tmp out r c o k Hotmp
                       (or_introl Hoout)) Ha).
      by rewrite E2, E1, E0. }
    assert (h3 !! o = h2 !! o) as E4.
    { apply (keeps_object _ _ _ _ _
               (λ k, forward_entropy_keeps self out dist o k
                       (or_introl Hoout)) He).
      by rewrite E3, E2, E1, E0. }
    assert (h' !! o = h3 !! o) as E5.
    { apply (keeps_object _ _ _ _ _
               (λ k, forward_critics_keeps distance_loss self tmp out o k
                       Hotmp (or_introl Hoout)) Hc).
      by rewrite E4, E3, E2, E1, E0. }
    by rewrite E5, E4, E3, E2, E1, E0.
Qed.

End Outputs.

Lemma forward_output_keys_witness :
  ∃ out h',
    forward Example.l2 Example.self 0%nat true Example.h0 = Ok (out, h')
    ∧ (is_Some (entry h' out ["loss_lagrangian"])
       ↔ ["loss_lagrangian"] ∈
           [["lagrangian"]; ["loss_pi"]; ["entropy"]; ["loss_r_critic"];
            ["loss_c_critic"]; ["loss_lagrangian"]; ["loss_entropy"]]).
Proof.
  eexists _, _. split; [reflexivity|].
  exact (proj1 (forward_output_keys Example.l2 Example.self 0%nat true
                  Example.h0 _ _ eq_refl) ["loss_lagrangian"]).
Defined.

(** ** Calls that raise *)

Section BatchPrefix.

Context {Params Dist : Type}.

Implicit Types (self : @PPOLagLoss Params Dist) (h : heap).

(** [forward_batch] up to the estimator calls, on a batch that has
    ['avg_violation'] when the multiplier is trained. *)
Lemma forward_batch_to_estimators self tdict train h td :
  h !! tdict = Some td →
  (train = true → is_Some (td !! ["avg_violation"])) →
  let tmp := fresh_oid h in
  let out := fresh_oid (<[tmp := td]> h) in
  ∃ hl,
    hl !! tdict = Some td ∧ hl !! tmp = Some td ∧ tdict ≠ tmp
    ∧ forward_batch self tdict train h
      = (forward_estimators self tdict tmp;;
         '(r_advantage, c_advantage) ← forward_advantages self tmp;
         mret (tmp, out, r_advantage, c_advantage)) hl.
Proof.
  intros Htd Hav tmp out.
  destruct (forward_batch_start self tdict train h td Htd)
    as (Htmp & Hout & Hot & ->).
  fold tmp out in Htmp, Hout, Hot |- *.
  set (hb := (<[out := ∅]> (<[tmp := td]> h) : heap)).
  assert (hb !! tdict = Some td) as Hbtd.
  { unfold hb. by rewrite !lookup_insert_ne. }
  assert (hb !! tmp = Some td) as Hbtmp.
  { unfold hb. rewrite lookup_insert_ne by done. apply lookup_insert_eq. }
  pose proof (forward_lagrangian_run self tdict out train hb td ∅
                ltac:(done) Hbtd ltac:(apply lookup_insert_eq)) as Hl.
  assert (∃ hl, forward_lagrangian self tdict out train hb = Ok (tt, hl))
    as [hl Hl'].
  { rewrite Hl. destruct train; [|eauto].
    destruct (Hav eq_refl) as [av ->]. eauto. }
  exists hl.
  assert (∀ o, o ≠ out → hl !! o = hb !! o) as Hfr.
  { intros o Ho. by apply (forward_lagrangian_objects _ _ _ _ _ _ _ Hl'). }
  rewrite !Hfr by done. repeat split; [done..|].
  by rewrite (bind_run _ _ _ _ _ Hl').
Qed.

End BatchPrefix.

Section Failures.

Context {Params Dist : Type}.
Variable distance_loss : Tensor → Tensor → string → result Tensor.

Implicit Types (self : @PPOLagLoss Params Dist) (h : heap).

(** X17: asked to train the multiplier on a batch without
    ['avg_violation'], [forward] raises [KeyError] for that key, before any
    estimator is called. *)
Theorem missing_avg_violation_raises self tdict h td :
  h !! tdict = Some td →
  td !! ["avg_violation"] = None →
  forward distance_loss self tdict true h = Err (KeyError ["avg_violation"]).
Proof.
  intros Htd Hav. unfold forward. apply bind_fail.
  destruct (forward_batch_start self tdict true h td Htd)
    as (Htmp & Hout & Hot & ->).
  apply bind_fail.
  rewrite (forward_lagrangian_run self tdict _ true _ td ∅);
    [by rewrite Hav|done| |apply lookup_insert_eq].
  by rewrite !lookup_insert_ne.
Qed.

(** X18: a batch without [('next', 'reward')] makes [forward] raise
    [KeyError] for that key, and a reward tensor with fewer than two
    dimensions makes it raise [IndexError]; in both cases no estimator has
    been called. *)
Theorem malformed_reward_raises self tdict train h td :
  h !! tdict = Some td →
  (train = true → is_Some (td !! ["avg_violation"])) →
  (td !! ["next"; "reward"] = None →
   forward distance_loss self tdict train h
   = Err (KeyError ["next"; "reward"]))
  ∧ (∀ reward, td !! ["next"; "reward"] = Some reward →
     (length (shape reward) < 2)%nat →
     forward distance_loss self tdict train h = Err IndexError).
Proof.
  intros Htd Hav.
  destruct (forward_batch_to_estimators self tdict train h td Htd Hav)
    as (hl & Hltd & Hltmp & Hne & Hrun).
  split.
  - intros Hrew. unfold forward. apply bind_fail. rewrite Hrun.
    apply bind_fail. unfold forward_estimators. apply bind_fail.
    unfold td_get, td_lookup. rewrite Hltd. simpl. by rewrite Hrew.
  - intros reward Hrew Hdim. unfold forward. apply bind_fail. rewrite Hrun.
    apply bind_fail. unfold forward_estimators.
    rewrite (bind_run _ _ _ reward hl).
    2:{ unfold td_get, td_lookup. rewrite Hltd. simpl. by rewrite Hrew. }
    apply bind_fail. unfold lift, slice_dim1.
    destruct (shape reward) as [|n [|c rest]]; [done..|simpl in Hdim; lia].
Qed.

(** X19: on a batch with the entries the loss module itself reads, an error
    raised by the reward estimator or by the cost estimator is the error of
    [forward]; and when the estimators return without having written the
    reward advantage, or the cost advantage, [forward] raises [KeyError] for
    the advantage key that is missing. *)
Theorem estimator_failures_propagate self tdict train h td reward r0 c0 :
  h !! tdict = Some td →
  (train = true → is_Some (td !! ["avg_violation"])) →
  td !! ["next"; "reward"] = Some reward →
  slice_dim1 0 (Some 1%nat) reward = Ok r0 →
  slice_dim1 1 None reward = Ok c0 →
  let r_call := r_value_estimator self (critic_params (super self))
                  (target_critic_params (super self))
                  (<[ ["next"; "reward"] := r0 ]> td) in
  let c_call td1 := c_value_estimator self (safe_critic_params self)
                      (target_safe_critic_params self)
                      (<[ ["next"; "reward"] := c0 ]> td1) in
  (∀ e, r_call = Err e →
        forward distance_loss self tdict train h = Err e)
  ∧ (∀ td1 e, r_call = Ok td1 → c_call td1 = Err e →
        forward distance_loss self tdict train h = Err e)
  ∧ (∀ td1 td2, r_call = Ok td1 → c_call td1 = Ok td2 →
        td2 !! advantage_key (super self) = None →
        forward distance_loss self tdict train h
        = Err (KeyError (advantage_key (super self))))
  ∧ (∀ td1 td2, r_call = Ok td1 → c_call td1 = Ok td2 →
        is_Some (td2 !! advantage_key (super self)) →
        td2 !! c_advantage_key self = None →
        forward distance_loss self tdict train h
        = Err (KeyError (c_advantage_key self))).
Proof.
  intros Htd Hav Hrew Hr Hc r_call c_call.
  assert (∃ av, train = true → td !! ["avg_violation"] = Some av) as [av Hav'].
  { destruct train.
    - destruct (Hav eq_refl) as [av Hx]. by exists av.
    - by exists (scalar 0). }
  pose proof (forward_batch_run self tdict train h td av reward r0 c0
                Htd Hav' Hrew Hr Hc) as Hrun.
  simpl in Hrun. fold r_call in Hrun.
  repeat split.
  - intros e He. unfold forward. apply bind_fail. by rewrite Hrun, He.
  - intros td1 e H1 He. unfold forward. apply bind_fail.
    rewrite Hrun, H1. fold (c_call td1). by rewrite He.
  - intros td1 td2 H1 H2 Hadv. unfold forward. apply bind_fail.
    rewrite Hrun, H1. fold (c_call td1). rewrite H2.
    unfold td_lookup. by rewrite Hadv.
  - intros td1 td2 H1 H2 [ra Hadv] Hcadv. unfold forward. apply bind_fail.
    rewrite Hrun, H1. fold (c_call td1). rewrite H2.
    unfold td_lookup. by rewrite Hadv, Hcadv.
Qed.

End Failures.

(** ** The further properties at concrete inputs *)

Lemma forward_reports_multiplier_witness :
  ∃ out h',
    forward Example.l2 Example.self 0%nat false Example.h0 = Ok (out, h')
    ∧ entry h' out ["lagrangian"]
      = Some (scalar (softplus (lag Example.self))).
Proof.
  eexists _, _. split; [reflexivity|].
  destruct (forward_reports_multiplier Example.l2 Example.self 0%nat
              false Example.h0 _ _ eq_refl)
    as (lam & _ & _ & _ & _ & _ & _ & _ & _ & -> & Hl & _).
  exact Hl.
Defined.

Lemma forward_entropy_outputs_witness :
  ∃ out h' entropy,
    forward Example.l2 Example.self 0%nat false Example.h0 = Ok (out, h')
    ∧ entry h' out ["entropy"] = Some (scalar (mean entropy))
    ∧ entry h' out ["loss_entropy"]
      = Some (scalar (- entropy_coef (super Example.self) * mean entropy)).
Proof.
  eexists _, _.
  destruct (forward_entropy_outputs Example.l2 Example.self 0%nat false
              Example.h0 _ _ eq_refl)
    as (_ & _ & _ & _ & _ & _ & entropy & _ & _ & _ & He & Hl).
  exists entropy. split; [reflexivity|]. split; [exact He|exact Hl].
Defined.

Lemma forward_critic_losses_witness :
  ∃ out h' dr dc,
    forward Example.l2 Example.self 0%nat false Example.h0 = Ok (out, h')
    ∧ entry h' out ["loss_r_critic"]
      = Some (scalar (critic_coef (super Example.self) * mean dr))
    ∧ entry h' out ["loss_c_critic"]
      = Some (scalar (critic_coef (super Example.self) * mean dc)).
Proof.
  eexists _, _.
  destruct (forward_critic_losses Example.l2 Example.self 0%nat false
              Example.h0 _ _ eq_refl)
    as (_ & _ & _ & _ & _ & _ & _ & _ & _ & _ & dr & _ & _ & _ & dc
        & _ & _ & _ & _ & _ & _ & _ & _ & _ & _ & _ & _ & Hr & Hc).
  exists dr, dc. split; [reflexivity|]. split; [exact Hr|exact Hc].
Defined.

Lemma forward_writes_new_objects_only_witness :
  ∃ out h',
    forward Example.l2 Example.self 0%nat true Example.h0 = Ok (out, h')
    ∧ Example.h0 !! out = None
    ∧ h' !! 0%nat = Example.h0 !! 0%nat.
Proof.
  eexists _, _. split; [reflexivity|].
  destruct (forward_writes_new_objects_only Example.l2 Example.self 0%nat true
              Example.h0 _ _ eq_refl) as [Hnew Hold].
  split; [exact Hnew|]. apply Hold. by eexists.
Defined.

(** Training the multiplier on the example batch without
    ['avg_violation']. *)
Lemma missing_avg_violation_raises_witness :
  forward Example.l2 Example.self 0%nat true
    {[ 0%nat := delete ["avg_violation"] Example.batch ]}
  = Err (KeyError ["avg_violation"]).
Proof.
  apply (missing_avg_violation_raises Example.l2 Example.self 0%nat _
           (delete ["avg_violation"] Example.batch));
    reflexivity.
Defined.

(** A reward tensor of shape [(4,)]: there is no second dimension to
    slice. *)
Lemma malformed_reward_raises_witness :
  forward Example.l2 Example.self 0%nat false
    {[ 0%nat := <[ ["next"; "reward"] := mkTensor [4%nat] [1; -1; 2; -2] ]>
                  Example.batch ]}
  = Err IndexError.
Proof.
  eapply (proj2 (malformed_reward_raises Example.l2 Example.self 0%nat false
                   {[ 0%nat := <[ ["next"; "reward"] :=
                                    mkTensor [4%nat] [1; -1; 2; -2] ]>
                                 Example.batch ]}
                   (<[ ["next"; "reward"] := mkTensor [4%nat] [1; -1; 2; -2] ]>
                      Example.batch)
                   ltac:(apply lookup_singleton_eq) ltac:(intros [=]))).
  - apply lookup_insert_eq.
  - simpl. lia.
Defined.

(** A reward estimator that returns without writing the advantage. *)
Lemma estimator_failures_propagate_witness :
  forward Example.l2
    (Example.make (λ _ _ td, Ok td)
       (Example.estimator ["c_advantage"] ["c_value_target"]) Example.zeros)
    0%nat false Example.h0
  = Err (KeyError ["r_advantage"]).
Proof.
  eapply (proj1 (proj2 (proj2
            (estimator_failures_propagate Example.l2
               (Example.make (λ _ _ td, Ok td)
                  (Example.estimator ["c_advantage"] ["c_value_target"])
                  Example.zeros)
               0%nat false Example.h0 Example.batch Example.reward _ _
               eq_refl ltac:(intros [=]) eq_refl eq_refl eq_refl))));
    reflexivity.
Defined.

(** ** The train flag and the other outputs *)

Lemma blind_bind {A B} (out : oid) (k0 : key) (m : M A) (f : A → M B) :
  blind out k0 m → (∀ a, blind out k0 (f a)) → blind out k0 (m ≫= f).
Proof.
  intros Hm Hf h1 h2 b h1' Hag (a & hm & H1 & H2)%bind_ok.
  destruct (Hm _ _ _ _ Hag H1) as (hm2 & H1' & Hag').
  destruct (Hf a _ _ _ _ Hag' H2) as (h2' & H2' & Hag'').
  exists h2'. split; [|done]. by rewrite (bind_run _ _ _ _ _ H1').
Qed.

Lemma blind_ret {A} (out : oid) (k0 : key) (a : A) : blind out k0 (mret a).
Proof. intros h1 h2 b h1' Hag [-> ->]%ret_ok. by exists h2. Qed.

Lemma blind_lift {A} (out : oid) (k0 : key) (r : result A) :
  blind out k0 (lift r).
Proof.
  intros h1 h2 b h1' Hag [-> ->]%lift_ok. by exists h2.
Qed.

Lemma blind_assert (out : oid) (k0 : key) (b : bool) :
  blind out k0 (assert_ b).
Proof.
  intros h1 h2 u h1' Hag [-> ->]%assert_ok. exists h2. by destruct u.
Qed.

Lemma blind_get (out : oid) (k0 : key) (o : oid) (k : key) :
  o ≠ out → blind out k0 (td_get o k).
Proof.
  intros Hne h1 h2 t h1' Hag [-> (td & Htd & Hk)]%td_get_ok.
  exists h2. split; [|done]. destruct Hag as (Hobj & _ & _).
  unfold td_get, td_lookup. rewrite <- Hobj, Htd by done. by rewrite Hk.
Qed.

Lemma blind_set (out : oid) (k0 : key) (o : oid) (k : key) (v : Tensor) :
  blind out k0 (td_set o k v).
Proof.
  intros h1 h2 u h1' (Hobj & Hsome & Hent) (td & Htd & ->)%td_set_ok.
  destruct (decide (o = out)) as [->|Hne].
  - destruct (proj1 Hsome ltac:(eauto)) as [td2 Htd2].
    exists (<[out := <[k := v]> td2]> h2). split.
    + unfold td_set. rewrite Htd2. by destruct u.
    + split; [|split].
      * intros o Ho. rewrite !lookup_insert_ne by done. by apply Hobj.
      * rewrite !lookup_insert_eq. split; eauto.
      * intros k' Hk'. unfold entry. rewrite !lookup_insert_eq. simpl.
        destruct (decide (k = k')) as [->|Hkk].
        -- by rewrite !lookup_insert_eq.
        -- rewrite !lookup_insert_ne by done.
           specialize (Hent k' Hk'). unfold entry in Hent.
           by rewrite Htd, Htd2 in Hent.
  - exists (<[o := <[k := v]> td]> h2). split.
    + unfold td_set. rewrite <- Hobj, Htd by done. by destruct u.
    + split; [|split].
      * intros o' Ho'. destruct (decide (o' = o)) as [->|Hoo].
        -- by rewrite !lookup_insert_eq.
        -- rewrite !lookup_insert_ne by done. by apply Hobj.
      * by rewrite !lookup_insert_ne.
      * intros k' Hk'. unfold entry. rewrite !lookup_insert_ne by done.
        by apply Hent.
Qed.

Lemma blind_call_with {A} (out : oid) (k0 : key)
    (f : TensorDict → result (A * TensorDict)) (o : oid) :
  o ≠ out → blind out k0 (td_call_with f o).
Proof.
  intros Hne h1 h2 a h1' (Hobj & Hsome & Hent)
    (td & td' & Htd & Hf & ->)%td_call_with_ok.
  exists (<[o := td']> h2). split.
  - unfold td_call_with. rewrite <- Hobj, Htd by done. by rewrite Hf.
  - split; [|split].
    + intros o' Ho'. destruct (decide (o' = o)) as [->|Hoo].
      * by rewrite !lookup_insert_eq.
      * rewrite !lookup_insert_ne by done. by apply Hobj.
    + by rewrite !lookup_insert_ne.
    + intros k' Hk'. unfold entry. rewrite !lookup_insert_ne by done.
      by apply Hent.
Qed.

Lemma blind_call (out : oid) (k0 : key) (f : TensorDict → result TensorDict)
    (o : oid) : o ≠ out → blind out k0 (td_call f o).
Proof. intros Hne. by apply blind_call_with. Qed.

Create HintDb blind.
#[local] Hint Resolve blind_ret blind_lift blind_assert blind_get blind_set
  blind_call blind_call_with : blind.

Ltac blind_step :=
  first
    [ apply blind_bind; [|intros ?]
    | solve [auto with blind]
    | match goal with |- blind _ _ (if ?b then _ else _) => destruct b end
    | match goal with |- blind _ _ (let '(_, _) := ?p in _) => destruct p end ].

Section TrainFlag.

Context {Params Dist : Type}.
Variable distance_loss : Tensor → Tensor → string → result Tensor.

Implicit Types (self : @PPOLagLoss Params Dist) (h : heap).

(** Everything [forward] does after the dual loss branch is blind to the
    ["loss_lagrangian"] entry of the output mapping. *)
Lemma forward_rest_blind self tdict tmp_td td_out :
  tdict ≠ td_out → tmp_td ≠ td_out →
  blind td_out ["loss_lagrangian"]
    (forward_estimators self tdict tmp_td;;
     '(r, c) ← forward_advantages self tmp_td;
     dist ← forward_actor self tmp_td td_out r c;
     forward_entropy self td_out dist;;
     forward_critics distance_loss self tmp_td td_out;;
     mret td_out).
Proof.
  intros Htd Htmp.
  unfold forward_estimators, forward_advantages, forward_actor,
    forward_entropy, forward_critics.
  repeat blind_step.
Qed.


(** [forward] as the allocation of its two objects followed by the dual
    loss branch and the rest. *)
Lemma forward_unfold self tdict train h td :
  h !! tdict = Some td →
  let tmp := fresh_oid h in
  let out := fresh_oid (<[tmp := td]> h) in
  forward distance_loss self tdict train h
  = (forward_lagrangian self tdict out train;;
     forward_estimators self tdict tmp;;
     '(r, c) ← forward_advantages self tmp;
     dist ← forward_actor self tmp out r c;
     forward_entropy self out dist;;
     forward_critics distance_loss self tmp out;;
     mret out) (<[out := ∅]> (<[tmp := td]> h)).
Proof.
  intros Htd tmp out.
  destruct (forward_batch_start self tdict train h td Htd)
    as (_ & _ & _ & Hstart).
  fold tmp out in Hstart. unfold forward.
  unfold mbind at 1, M_bind at 1. rewrite Hstart.
  set (hb := (<[out := ∅]> (<[tmp := td]> h) : heap)).
  unfold mbind, M_bind, mret, M_ret.
  destruct (forward_lagrangian self tdict out train hb) as [[[] hl]|];
    [|done].
  destruct (forward_estimators self tdict tmp hl) as [[[] he]|]; [|done].
  by destruct (forward_advantages self tmp he) as [[[r c] ha]|].
Qed.

(** X20: asking for the multiplier to be trained changes nothing else.  If
    the call with [train_lagrangian = True] returns, so does the call with
    [False] on the same heap; it returns the same output object, whose
    entries other than ["loss_lagrangian"] are the same, and it leaves every
    other object the same. *)
Theorem train_flag_changes_nothing_else self tdict h out h1 :
  forward distance_loss self tdict true h = Ok (out, h1) →
  ∃ h2,
    forward distance_loss self tdict false h = Ok (out, h2)
    ∧ (∀ k, k ≠ ["loss_lagrangian"] → entry h2 out k = entry h1 out k)
    ∧ (∀ o, o ≠ out → h2 !! o = h1 !! o).
Proof.
  intros Hrun.
  assert (∃ td, h !! tdict = Some td) as [td Htd].
  { apply forward_inv in Hrun
      as (tmp & r & c & hx & dist & h2 & h3 & Hb & _).
    apply forward_batch_inv in Hb as (td & _ & _ & Htd & _). eauto. }
  destruct (forward_batch_start self tdict true h td Htd)
    as (Htmp & Hout & Hot & _).
  rewrite (forward_unfold self tdict true h td Htd) in Hrun.
  rewrite (forward_unfold self tdict false h td Htd).
  set (tmp := fresh_oid h) in *.
  set (o' := fresh_oid (<[tmp := td]> h)) in *.
  set (hb := (<[o' := ∅]> (<[tmp := td]> h) : heap)) in *.
  assert (hb !! tdict = Some td) as Hbtd.
  { unfold hb. by rewrite !lookup_insert_ne. }
  assert (hb !! o' = Some ∅) as Hbo by apply lookup_insert_eq.
  apply bind_ok in Hrun as ([] & hl1 & Hl1 & Hrest).
  rewrite (forward_lagrangian_run self tdict o' true hb td ∅) in Hl1
    by done.
  destruct (td !! ["avg_violation"]) as [av|]; [|done].
  injection Hl1 as <-.
  set (hl2 := (<[o' := <[ ["lagrangian"] := scalar (lagrangian self) ]> ∅]> hb
               : heap)).
  assert (forward_lagrangian self tdict o' false hb = Ok (tt, hl2)) as Hl2.
  { by rewrite (forward_lagrangian_run self tdict o' false hb td ∅). }
  rewrite (bind_run _ _ _ _ _ Hl2).
  match type of Hrest with ?m ?x = _ => set (hl1 := x) in * end.
  assert (agree_except o' ["loss_lagrangian"] hl1 hl2) as Hag.
  { unfold hl1, hl2. split; [|split].
    - intros o Ho. by rewrite !lookup_insert_ne.
    - rewrite !lookup_insert_eq. split; eauto.
    - intros k Hk. unfold entry. rewrite !lookup_insert_eq. simpl.
      destruct (decide (k = ["lagrangian"])) as [->|Hkl].
      + by rewrite !lookup_insert_eq.
      + by rewrite !lookup_insert_ne. }
  destruct (forward_rest_blind self tdict tmp o'
              ltac:(done) ltac:(done) _ _ _ _ Hag Hrest)
    as (h2 & Hrun2 & (Hobj & _ & Hent)).
  exists h2. split; [done|].
  assert (out = o') as ->.
  { clear -Hrest.
    apply bind_ok in Hrest as ([] & ? & _ & Hrest).
    apply bind_ok in Hrest as ([r c] & ? & _ & Hrest).
    apply bind_ok in Hrest as (dist & ? & _ & Hrest).
    apply bind_ok in Hrest as ([] & ? & _ & Hrest).
    apply bind_ok in Hrest as ([] & ? & _ & Hrest).
    by apply ret_ok in Hrest as [-> _]. }
  split.
  - intros k Hk. symmetry. by apply Hent.
  - intros o Ho. symmetry. by apply Hobj.
Qed.

End TrainFlag.

Lemma train_flag_changes_nothing_else_witness :
  ∃ out h1 h2,
    forward Example.l2 Example.self 0%nat true Example.h0 = Ok (out, h1)
    ∧ forward Example.l2 Example.self 0%nat false Example.h0 = Ok (out, h2)
    ∧ entry h2 out ["loss_pi"] = entry h1 out ["loss_pi"].
Proof.
  eexists _, _.
  destruct (train_flag_changes_nothing_else Example.l2 Example.self 0%nat
              Example.h0 _ _ eq_refl) as (h2 & H2 & Hk & _).
  exists h2. split; [reflexivity|]. split; [exact H2|].
  apply Hk. intros [=].
Defined.

(** ** When a call returns *)

Section StageResults.

Context {Params Dist : Type}.

Implicit Types (self : @PPOLagLoss Params Dist) (h : heap).

Lemma normalize_advantages_shape (enabled : bool) (ra ca : Tensor) :
  shape (normalize_advantages enabled ra ca).1 = shape ra
  ∧ shape (normalize_advantages enabled ra ca).2 = shape ca.
Proof.
  unfold normalize_advantages. destruct enabled; [|done]. simpl.
  split; by case_match.
Qed.

(** The actor stage, completely. *)
Lemma forward_actor_heap self tmp_td td_out r c h1 td tdo log_weight dist td' :
  h1 !! tmp_td = Some td → h1 !! td_out = Some tdo → tmp_td ≠ td_out →
  _log_weight (super self) td = Ok ((log_weight, dist), td') →
  shape c = shape log_weight → shape r = shape log_weight →
  forward_actor self tmp_td td_out r c h1
  = Ok (dist,
        <[td_out := <[ ["loss_pi"] :=
                         scalar (actor_loss (lagrangian self)
                                   (_clip_bounds (super self)) log_weight r c) ]>
                      tdo]> (<[tmp_td := td']> h1)).
Proof.
  intros Htd Ho Hne Hw Hc Hr. unfold forward_actor.
  rewrite (bind_run _ _ _ (log_weight, dist) (<[tmp_td := td']> h1)).
  2:{ unfold td_call_with. by rewrite Htd, Hw. }
  rewrite (bind_run _ _ _ () (<[tmp_td := td']> h1)).
  2:{ unfold assert_, shape_eqb. by rewrite !bool_decide_eq_true_2. }
  set (v := scalar _).
  rewrite (bind_run _ _ _ ()
             (<[td_out := <[["loss_pi"] := v]> tdo]> (<[tmp_td := td']> h1))).
  2:{ unfold td_set. by rewrite lookup_insert_ne, Ho. }
  done.
Qed.

(** The entropy stage, completely. *)
Lemma forward_entropy_run self td_out dist h2 tdo entropy :
  h2 !! td_out = Some tdo →
  get_entropy_bonus (super self) dist = Ok entropy →
  forward_entropy self td_out dist h2
  = Ok (tt,
        <[td_out := <[ ["entropy"] := scalar (mean entropy) ]>
                      (if entropy_bonus (super self)
                       then <[ ["loss_entropy"] :=
                                 scalar (- entropy_coef (super self)
                                         * mean entropy) ]> tdo
                       else tdo)]> h2).
Proof.
  intros Ho Hent. unfold forward_entropy, detach.
  rewrite (bind_run _ _ _ entropy h2) by (unfold lift; by rewrite Hent).
  destruct (entropy_bonus (super self)).
  - set (v := scalar (- _ * _)).
    rewrite (bind_run _ _ _ () (<[td_out := <[ ["loss_entropy"] := v ]> tdo]> h2)).
    2:{ unfold td_set. by rewrite Ho. }
    unfold td_set. by rewrite lookup_insert_eq, insert_insert_eq.
  - rewrite (bind_run _ _ _ () h2) by done.
    unfold td_set. by rewrite Ho.
Qed.

End StageResults.

Section Success.

Context {Params Dist : Type}.
Variable distance_loss : Tensor → Tensor → string → result Tensor.

Implicit Types (self : @PPOLagLoss Params Dist) (h : heap).

(** The critic stage, completely. *)
Lemma forward_critics_run self tmp_td td_out h3 td3 tdo target tdr pred dr
    c_target tdc c_pred dc :
  tmp_td ≠ td_out → h3 !! tmp_td = Some td3 → h3 !! td_out = Some tdo →
  td3 !! value_target_key (super self) = Some target →
  critic (super self) (critic_params (super self)) td3 = Ok tdr →
  tdr !! value_key (super self) = Some pred →
  distance_loss target pred (loss_critic_type (super self)) = Ok dr →
  tdr !! c_value_target_key self = Some c_target →
  safe_critic self (safe_critic_params self) tdr = Ok tdc →
  tdc !! c_value_key self = Some c_pred →
  distance_loss c_target c_pred (loss_critic_type (super self)) = Ok dc →
  forward_critics distance_loss self tmp_td td_out h3
  = Ok (tt,
        <[td_out :=
            <[ ["loss_c_critic"] :=
                 scalar (mean (tensor_map (Rmult (critic_coef (super self)))
                                 dc)) ]>
              (<[ ["loss_r_critic"] :=
                    scalar (mean (tensor_map (Rmult (critic_coef (super self)))
                                    dr)) ]> tdo)]> (<[tmp_td := tdc]> h3)).
Proof.
  intros Hne Htd3 Ho Htar Hcr Hpred Hdr Hctar Hscr Hcpred Hdc.
  unfold forward_critics.
  rewrite (bind_run _ _ _ target h3).
  2:{ unfold td_get, td_lookup. rewrite Htd3. simpl. by rewrite Htar. }
  rewrite (bind_run _ _ _ () (<[tmp_td := tdr]> h3)).
  2:{ unfold td_call, td_call_with. rewrite Htd3. by rewrite Hcr. }
  rewrite (bind_run _ _ _ pred (<[tmp_td := tdr]> h3)).
  2:{ unfold td_get, td_lookup. rewrite lookup_insert_eq. simpl.
      by rewrite Hpred. }
  rewrite (bind_run _ _ _ dr (<[tmp_td := tdr]> h3)).
  2:{ unfold lift. by rewrite Hdr. }
  cbv zeta.
  rewrite (bind_run _ _ _ c_target (<[tmp_td := tdr]> h3)).
  2:{ unfold td_get, td_lookup. rewrite lookup_insert_eq. simpl.
      by rewrite Hctar. }
  rewrite (bind_run _ _ _ () (<[tmp_td := tdc]> h3)).
  2:{ unfold td_call, td_call_with. rewrite lookup_insert_eq, Hscr.
      by rewrite insert_insert_eq. }
  rewrite (bind_run _ _ _ c_pred (<[tmp_td := tdc]> h3)).
  2:{ unfold td_get, td_lookup. rewrite lookup_insert_eq. simpl.
      by rewrite Hcpred. }
  rewrite (bind_run _ _ _ dc (<[tmp_td := tdc]> h3)).
  2:{ unfold lift. by rewrite Hdc. }
  cbv zeta.
  set (vr := scalar (mean (tensor_map _ dr))).
  rewrite (bind_run _ _ _ ()
             (<[td_out := <[ ["loss_r_critic"] := vr ]> tdo]>
                (<[tmp_td := tdc]> h3))).
  2:{ unfold td_set. by rewrite lookup_insert_ne, Ho. }
  unfold td_set. by rewrite lookup_insert_eq, insert_insert_eq.
Qed.

(** X21: [forward] returns an output mapping whenever the batch exists and
    has a reward tensor with a second dimension (and ['avg_violation'] when
    the multiplier is trained), the two estimators return and leave the two
    advantages, the log-weight has the shape of both advantages, the clip
    epsilon lies strictly between -1 and 1 (outside, the [log1p] of the
    clip bounds raises in torchrl, which [_clip_bounds] here does not
    show), the entropy is available, and the two critics and the distance
    between each value target and its prediction return. *)
Theorem forward_returns self tdict train h td av reward r0 c0 td1 td2 ra ca
    log_weight dist td3 entropy target tdr pred dr c_target tdc c_pred dc :
  h !! tdict = Some td →
  (train = true → td !! ["avg_violation"] = Some av) →
  td !! ["next"; "reward"] = Some reward →
  slice_dim1 0 (Some 1%nat) reward = Ok r0 →
  slice_dim1 1 None reward = Ok c0 →
  r_value_estimator self (critic_params (super self))
    (target_critic_params (super self)) (<[ ["next"; "reward"] := r0 ]> td)
  = Ok td1 →
  c_value_estimator self (safe_critic_params self)
    (target_safe_critic_params self) (<[ ["next"; "reward"] := c0 ]> td1)
  = Ok td2 →
  td2 !! advantage_key (super self) = Some ra →
  td2 !! c_advantage_key self = Some ca →
  _log_weight (super self) td2 = Ok ((log_weight, dist), td3) →
  shape ca = shape log_weight →
  shape ra = shape log_weight →
  -1 < clip_epsilon (super self) < 1 →
  get_entropy_bonus (super self) dist = Ok entropy →
  td3 !! value_target_key (super self) = Some target →
  critic (super self) (critic_params (super self)) td3 = Ok tdr →
  tdr !! value_key (super self) = Some pred →
  distance_loss target pred (loss_critic_type (super self)) = Ok dr →
  tdr !! c_value_target_key self = Some c_target →
  safe_critic self (safe_critic_params self) tdr = Ok tdc →
  tdc !! c_value_key self = Some c_pred →
  distance_loss c_target c_pred (loss_critic_type (super self)) = Ok dc →
  ∃ out h', forward distance_loss self tdict train h = Ok (out, h').
Proof.
  intros Htd Hav Hrew Hr0 Hc0 Hre Hce Hra Hca Hlw Hsc Hsr Hclip Hent
    Htar Hcr Hpred Hdr Hctar Hscr Hcpred Hdc.
  pose proof (forward_batch_run self tdict train h td av reward r0 c0
                Htd Hav Hrew Hr0 Hc0) as Hb.
  cbv zeta in Hb. rewrite Hre, Hce in Hb. unfold td_lookup in Hb.
  rewrite Hra, Hca in Hb.
  destruct (forward_batch_start self tdict train h td Htd)
    as (Htmp & Hout & Hot & _).
  set (tmp := fresh_oid h) in *.
  set (out := fresh_oid (<[tmp := td]> h)) in *.
  destruct (normalize_advantages_shape (normalize_advantage (super self))
              ra ca) as [Hs1 Hs2].
  set (p := normalize_advantages _ ra ca) in *.
  match type of Hb with _ = Ok (_, ?x) => set (h1 := x) in * end.
  assert (h1 !! tmp = Some td2) as H1tmp by apply lookup_insert_eq.
  assert (∃ tdo, h1 !! out = Some tdo) as [tdo H1out].
  { eexists. unfold h1. rewrite lookup_insert_ne by done.
    apply lookup_insert_eq. }
  exists out. eexists. unfold forward.
  rewrite (bind_run _ _ _ _ _ Hb).
  rewrite (bind_run _ _ _ _ _
             (forward_actor_heap self tmp out p.1 p.2 h1 td2 tdo log_weight
                dist td3 H1tmp H1out ltac:(done) Hlw
                ltac:(congruence) ltac:(congruence))).
  match goal with |- context [<[out := ?t]> (<[tmp := td3]> h1)] =>
    set (tdo2 := t) end.
  rewrite (bind_run _ _ _ _ _
             (forward_entropy_run self out dist _ tdo2 entropy
                ltac:(apply lookup_insert_eq) Hent)).
  rewrite insert_insert_eq.
  match goal with |- context [<[out := ?t]> (<[tmp := td3]> h1)] =>
    set (tdo3 := t) end.
  rewrite (bind_run _ _ _ _ _
             (forward_critics_run self tmp out _ td3 tdo3 target tdr pred dr
                c_target tdc c_pred dc ltac:(done)
                ltac:(by rewrite lookup_insert_ne, lookup_insert_eq)
                ltac:(apply lookup_insert_eq)
                Htar Hcr Hpred Hdr Hctar Hscr Hcpred Hdc)).
  done.
Qed.

(** X22: the two multiplier classes train on the same dual loss.  For a
    [NaiveLagrange] with the raw parameter of the loss module, the
    ["loss_lagrangian"] that [PPOLagLoss.forward] emits is the mean over the
    batch of the tensor [NaiveLagrange.forward] returns at
    [cost_scale = 1]. *)
Theorem dual_losses_agree self (nl : NaiveLagrange.t) tdict h td out h' :
  NaiveLagrange.lag nl = lag self →
  h !! tdict = Some td →
  forward distance_loss self tdict true h = Ok (out, h') →
  ∃ losses,
    NaiveLagrange.forward nl td 1 = Ok losses
    ∧ entry h' out ["loss_lagrangian"] = Some (scalar (mean losses)).
Proof.
  intros Hlag Htd Hrun.
  destruct (forward_loss_lagrangian distance_loss self tdict true h out h'
              Hrun) as (av & Hav & Hl).
  unfold entry in Hav. rewrite Htd in Hav. simpl in Hav.
  exists (tensor_map (Rmult (- softplus (lag self))) av). split.
  - unfold NaiveLagrange.forward, td_lookup. rewrite Hav. f_equal.
    unfold tensor_map. f_equal. apply map_ext. intros v.
    unfold NaiveLagrange.lagrangian_loss, NaiveLagrange.proj.
    rewrite Hlag. lra.
  - by rewrite Hl, mean_scale.
Qed.

End Success.

Lemma forward_returns_witness :
  ∃ out h', forward Example.l2 Example.self 0%nat true Example.h0 = Ok (out, h').
Proof.
  eapply (forward_returns Example.l2 Example.self 0%nat true Example.h0
            Example.batch);
    first [ apply lookup_singleton_eq | reflexivity | intros _; reflexivity
          | simpl; lra ].
Defined.

Lemma dual_losses_agree_witness :
  ∃ out h' losses,
    forward Example.l2 Example.self 0%nat true Example.h0 = Ok (out, h')
    ∧ NaiveLagrange.forward (NaiveLagrange.init 1 0) Example.batch 1
      = Ok losses
    ∧ entry h' out ["loss_lagrangian"] = Some (scalar (mean losses)).
Proof.
  eexists _, _.
  destruct (dual_losses_agree Example.l2 Example.self (NaiveLagrange.init 1 0)
              0%nat Example.h0 Example.batch _ _ eq_refl
              ltac:(apply lookup_singleton_eq) eq_refl)
    as (losses & Hn & Hl).
  exists losses. split; [reflexivity|]. split; [exact Hn|exact Hl].
Defined.
